(** * ChessDuo tooling: the metadata exporter and the localization consolidator

    A shallow embedding of [export_metadata.py] and
    [scripts/generate_localizable_xcstring.py].

    Python's [str] is a sequence of Unicode code points: a character is a
    code point in [N], a string a list of them.  The functions of the
    Python library the scripts call ([str.strip], [str.splitlines],
    [str.replace], [re.search], [re.split], [re.sub], [sorted],
    [os.path.join], insertion-ordered [dict]) are written out with their
    Python behaviour; the scripts' own functions keep their names. *)

From Stdlib Require Import NArith Ascii Lia.
From stdpp Require Import base option list gmap strings sorting.

Open Scope N_scope.

#[local] Set Warnings "-clear-no-such-hyp".

(** ** Python strings *)

Module Py.

Abbreviation char := N (only parsing).
Abbreviation str := (list N) (only parsing).

(** A string literal of the source, as code points. *)
Fixpoint lit (x : string) : str :=
  match x with
  | EmptyString => []
  | String a x' => N_of_ascii a :: lit x'
  end.

Arguments lit : simpl never.

Definition NL : char := 10.
Definition CR : char := 13.

(** [str.isspace] on one character, which is also the class [\s] of a
    [str] pattern: U+0009..000D, U+001C..0020, U+0085, U+00A0, U+1680,
    U+2000..200A, U+2028, U+2029, U+202F, U+205F, U+3000. *)
Definition isspace (c : char) : bool :=
  ((9 <=? c) && (c <=? 13)) || ((28 <=? c) && (c <=? 32))
  || (c =? 133) || (c =? 160) || (c =? 5760)
  || ((8192 <=? c) && (c <=? 8202))
  || (c =? 8232) || (c =? 8233) || (c =? 8239) || (c =? 8287)
  || (c =? 12288).

(** The line boundaries of [str.splitlines]. *)
Definition is_linebreak (c : char) : bool :=
  ((10 <=? c) && (c <=? 13)) || ((28 <=? c) && (c <=? 30))
  || (c =? 133) || (c =? 8232) || (c =? 8233).

Fixpoint lstrip (x : str) : str :=
  match x with
  | c :: x' => if isspace c then lstrip x' else x
  | [] => []
  end.

Definition rstrip (x : str) : str := rev (lstrip (rev x)).

(** [x.strip()] *)
Definition strip (x : str) : str := rstrip (lstrip x).

(** [x.splitlines()]: the lines without their terminators; [\r\n] is one
    terminator; no empty last line after a final terminator. *)
Fixpoint splitlines_from (cur : str) (x : str) : list str :=
  match x with
  | [] => match cur with [] => [] | _ => [rev cur] end
  | c :: x' =>
      if is_linebreak c then
        rev cur ::
          match x' with
          | d :: x'' =>
              if (c =? CR) && (d =? NL) then splitlines_from [] x''
              else splitlines_from [] x'
          | [] => splitlines_from [] x'
          end
      else splitlines_from (c :: cur) x'
  end.

Definition splitlines (x : str) : list str := splitlines_from [] x.

(** [sep.join(parts)] *)
Fixpoint join (sep : str) (parts : list str) : str :=
  match parts with
  | [] => []
  | [p] => p
  | p :: ps => p ++ sep ++ join sep ps
  end.

Definition str_eqb (x y : str) : bool := bool_decide (x = y).

Fixpoint startswith (x p : str) : bool :=
  match p, x with
  | [], _ => true
  | a :: p', b :: x' => (a =? b) && startswith x' p'
  | _ :: _, [] => false
  end.

Definition endswith (x p : str) : bool := startswith (rev x) (rev p).

(** [x.replace(old, new)] for a non-empty [old]: the occurrences of [old]
    are found from left to right, without overlap.  [skip] counts the
    characters of the occurrence just replaced that are still to be
    passed over. *)
Fixpoint replace_from (old new : str) (skip : nat) (x : str) : str :=
  match x with
  | [] => []
  | c :: x' =>
      match skip with
      | S n => replace_from old new n x'
      | O =>
          if startswith x old
          then new ++ replace_from old new (pred (length old)) x'
          else c :: replace_from old new O x'
      end
  end.

Definition replace (x old new : str) : str := replace_from old new O x.

(** Comparison of strings, code point by code point, as [<] on [str]. *)
Fixpoint str_compare (x y : str) : comparison :=
  match x, y with
  | [], [] => Eq
  | [], _ :: _ => Lt
  | _ :: _, [] => Gt
  | a :: x', b :: y' =>
      match a ?= b with
      | Eq => str_compare x' y'
      | o => o
      end
  end.

Definition str_leb (x y : str) : bool :=
  match str_compare x y with Gt => false | _ => true end.

(** [sorted(xs)] on strings: a stable insertion sort. *)
Fixpoint insert_sorted (x : str) (xs : list str) : list str :=
  match xs with
  | [] => [x]
  | y :: ys => if str_leb x y then x :: xs else y :: insert_sorted x ys
  end.

Fixpoint sorted (xs : list str) : list str :=
  match xs with
  | [] => []
  | x :: xs' => insert_sorted x (sorted xs')
  end.

End Py.

(** ** Regular expressions of Python's [re], by backtracking *)

Module Re.
Import Py.

(** The part of the pattern language the two scripts use.  [x+] is
    [Seq x (Star x)], [x+?] is [Seq x (LazyStar x)] and [(?:x)?] is
    [Alt x Eps]. *)
Inductive regex : Type :=
| Eps
| Chr (c : char)
| Cls (p : char -> bool)
| Bol
| Eol
| Seq (r1 r2 : regex)
| Alt (r1 r2 : regex)
| Star (r : regex)
| LazyStar (r : regex)
| Group (g : nat) (r : regex).

Definition Plus (r : regex) : regex := Seq r (Star r).
Definition LazyPlus (r : regex) : regex := Seq r (LazyStar r).
Definition Opt (r : regex) : regex := Alt r Eps.

(** A literal text, [\s], [.] (without DOTALL) and [[^...]]. *)
Fixpoint Lit (x : str) : regex :=
  match x with
  | [] => Eps
  | c :: x' => Seq (Chr c) (Lit x')
  end.
Definition Space : regex := Cls isspace.
Definition Dot : regex := Cls (fun c => negb (c =? NL)).
Definition NoneOf (cs : list char) : regex :=
  Cls (fun c => negb (bool_decide (c ∈ cs))).

(** Where the matcher stands: the index, the character before it and
    the text from it on. *)
Record cursor : Type := Cursor { pos : nat; prev : option char; rest : str }.

Definition start_of (x : str) : cursor := Cursor 0 None x.

Definition advance (cu : cursor) : option (char * cursor) :=
  match rest cu with
  | [] => None
  | c :: t => Some (c, Cursor (S (pos cu)) (Some c) t)
  end.

(** The spans of the groups matched so far, the latest first. *)
Definition captures : Type := list (nat * (nat * nat)).

Definition outcome : Type := (cursor * captures)%type.

Definition at_bol (multiline : bool) (cu : cursor) : bool :=
  match prev cu with
  | None => true
  | Some c => multiline && (c =? NL)
  end.

Definition at_eol (multiline : bool) (cu : cursor) : bool :=
  match rest cu with
  | [] => true
  | c :: t => (c =? NL) && (multiline || bool_decide (t = []))
  end.

(** [run ml r cu cs k]: match [r] at [cu], then continue with [k]; the
    first success in the order of Python's backtracking (left
    alternative first, greedy repetition longest first, lazy repetition
    shortest first).  A repetition stops when its body matched without
    consuming a character. *)
Fixpoint run (ml : bool) (r : regex) (cu : cursor) (cs : captures)
    (k : cursor -> captures -> option outcome) {struct r} : option outcome :=
  match r with
  | Eps => k cu cs
  | Chr c =>
      match advance cu with
      | Some (d, cu') => if d =? c then k cu' cs else None
      | None => None
      end
  | Cls p =>
      match advance cu with
      | Some (d, cu') => if p d then k cu' cs else None
      | None => None
      end
  | Bol => if at_bol ml cu then k cu cs else None
  | Eol => if at_eol ml cu then k cu cs else None
  | Seq r1 r2 => run ml r1 cu cs (fun cu' cs' => run ml r2 cu' cs' k)
  | Alt r1 r2 =>
      match run ml r1 cu cs k with
      | Some o => Some o
      | None => run ml r2 cu cs k
      end
  | Star r1 =>
      (fix loop (n : nat) (cu : cursor) (cs : captures) : option outcome :=
         match n with
         | O => k cu cs
         | S n' =>
             match run ml r1 cu cs (fun cu' cs' =>
                     if (pos cu <? pos cu')%nat then loop n' cu' cs' else None) with
             | Some o => Some o
             | None => k cu cs
             end
         end) (length (rest cu)) cu cs
  | LazyStar r1 =>
      (fix loop (n : nat) (cu : cursor) (cs : captures) : option outcome :=
         match k cu cs with
         | Some o => Some o
         | None =>
             match n with
             | O => None
             | S n' =>
                 run ml r1 cu cs (fun cu' cs' =>
                   if (pos cu <? pos cu')%nat then loop n' cu' cs' else None)
             end
         end) (length (rest cu)) cu cs
  | Group g r1 =>
      run ml r1 cu cs (fun cu' cs' => k cu' ((g, (pos cu, pos cu')) :: cs'))
  end.

(** A match object: [m.start()], [m.end()], the cursor at the end and
    the group spans. *)
Record rmatch : Type :=
  RMatch { m_start : nat; m_end : nat; m_after : cursor; m_groups : captures }.

Definition match_at (ml : bool) (r : regex) (cu : cursor) : option rmatch :=
  match run ml r cu [] (fun cu' cs => Some (cu', cs)) with
  | Some (cu', cs) => Some (RMatch (pos cu) (pos cu') cu' cs)
  | None => None
  end.

(** The leftmost match at or after the cursor. *)
Fixpoint search_at (ml : bool) (r : regex) (i : nat) (p : option char)
    (x : str) : option rmatch :=
  match match_at ml r (Cursor i p x) with
  | Some m => Some m
  | None =>
      match x with
      | [] => None
      | c :: x' => search_at ml r (S i) (Some c) x'
      end
  end.

Definition search_from (ml : bool) (r : regex) (cu : cursor) : option rmatch :=
  search_at ml r (pos cu) (prev cu) (rest cu).

(** [re.search(r, x)] and [re.match(r, x)] *)
Definition search (ml : bool) (r : regex) (x : str) : option rmatch :=
  search_from ml r (start_of x).
Definition rematch (ml : bool) (r : regex) (x : str) : option rmatch :=
  match_at ml r (start_of x).

Definition slice (x : str) (i j : nat) : str := take (j - i) (drop i x).

(** [m.group(g)] on the subject [x]; a group that took no part is [None]. *)
Definition group (x : str) (m : rmatch) (g : nat) : option str :=
  match List.find (fun e => Nat.eqb (fst e) g) (m_groups m) with
  | Some (_, (i, j)) => Some (slice x i j)
  | None => None
  end.

(** The successive matches of [finditer] for a pattern that does not
    match the empty string: each search starts where the last match
    ended. *)
Fixpoint matches_from (ml : bool) (r : regex) (fuel : nat) (cu : cursor)
    : list rmatch :=
  match fuel with
  | O => []
  | S fuel' =>
      match search_from ml r cu with
      | Some m =>
          if (pos cu <? m_end m)%nat
          then m :: matches_from ml r fuel' (m_after m)
          else [m]
      | None => []
      end
  end.

Definition finditer (ml : bool) (r : regex) (x : str) : list rmatch :=
  matches_from ml r (S (length x)) (start_of x).

(** [re.split(r, x)] for a pattern with the one group [1]: the text
    between the matches, each followed by the group of the match. *)
Fixpoint split_pieces (x : str) (last : nat) (ms : list rmatch) : list str :=
  match ms with
  | [] => [drop last x]
  | m :: ms' =>
      slice x last (m_start m) :: default [] (group x m 1)
        :: split_pieces x (m_end m) ms'
  end.

Definition split (r : regex) (x : str) : list str :=
  split_pieces x 0 (finditer false r x).

(** [re.sub] with the empty replacement: the text with the matches
    taken out. *)
Fixpoint sub_pieces (x : str) (last : nat) (ms : list rmatch) : str :=
  match ms with
  | [] => drop last x
  | m :: ms' => slice x last (m_start m) ++ sub_pieces x (m_end m) ms'
  end.

Definition sub_empty (ml : bool) (r : regex) (x : str) : str :=
  sub_pieces x 0 (finditer ml r x).

End Re.

(** ** The metadata exporter, [export_metadata.py] *)

Module Exporter.
Import Py Re.

(** The directory [fastlane/metadata]: each locale directory with the
    text files in it.  The locale codes and file names the script uses
    are single path components. *)
Abbreviation tree := (gmap (list N) (gmap (list N) (list N))) (only parsing).

Definition LOCALES : list (str * str) :=
  [ (lit "German", lit "de-DE");
    (lit "English", lit "en-US");
    (lit "Spanish", lit "es-ES");
    (lit "French", lit "fr-FR");
    (lit "Simplified Chinese", lit "zh-Hans") ].

Definition FIELDS : list str :=
  [ lit "Name"; lit "Subtitle"; lit "Keywords"; lit "Promotional Text" ].

(** [LOCALES[lang_name]], [None] when [lang_name not in LOCALES]. *)
Fixpoint lookup_locale (table : list (str * str)) (lang_name : str) : option str :=
  match table with
  | [] => None
  | (name, code) :: table' =>
      if str_eqb name lang_name then Some code else lookup_locale table' lang_name
  end.

(** The header pattern of [re.split]: a newline, [==], white space, the
    language name as group 1 (one or more characters of a line, as few
    as possible), white space, [==] and a newline. *)
Definition HEADER_RE : regex :=
  Seq (Lit (NL :: lit "=="))
    (Seq (Star Space)
       (Seq (Group 1 (LazyPlus Dot))
          (Seq (Star Space) (Lit (lit "==" ++ [NL]))))).

(** [l[1::2]] and [l[2::2]] *)
Fixpoint every_other {A} (l : list A) : list A :=
  match l with
  | x :: _ :: l' => x :: every_other l'
  | [x] => [x]
  | [] => []
  end.

(** [pairs = list(zip(lang_blocks[1::2], lang_blocks[2::2]))] *)
Definition pairs (text : str) : list (str * str) :=
  let lang_blocks := split HEADER_RE text in
  zip (every_other (drop 1 lang_blocks)) (every_other (drop 2 lang_blocks)).

(** [re.sub] of the pattern [^\s+] (with [re.MULTILINE]) by the empty
    string, then [desc.strip()] and a newline. *)
Definition clean_desc (desc : str) : str :=
  let desc := sub_empty true (Seq Bol (Plus Space)) desc in
  strip desc ++ [NL].

(** The pattern of a field, with [re.MULTILINE]: at the start of a
    line the field name and a colon, white space, and as group 1 the
    rest of the line.  The field names hold letters and spaces only,
    which stand for themselves in a pattern. *)
Definition FIELD_RE (field : str) : regex :=
  Seq Bol
    (Seq (Lit field)
       (Seq (Chr 58)
          (Seq (Star Space) (Seq (Group 1 (Star Dot)) Eol)))).

(** [m.group(1).strip()] if the pattern was found, else the empty
    string. *)
Definition field_value (content field : str) : str :=
  match search true (FIELD_RE field) content with
  | Some m => strip (default [] (group content m 1))
  | None => []
  end.

(** The pattern [^Promotional Text:\s*$] with [re.MULTILINE]. *)
Definition PROMO_RE : regex :=
  Seq Bol (Seq (Lit (lit "Promotional Text:")) (Seq (Star Space) Eol)).

(** Lines 48 to 62: the text handed to [clean_desc]. *)
Definition desc_text (content : str) : str :=
  match search true PROMO_RE content with
  | Some promo_pos =>
      let start := m_end promo_pos in
      let after := drop start content in
      let after := splitlines after in
      let after := match after with [] => [] | _ :: after' => after' end in
      join [NL] after
  | None => content
  end.

(** [target.mkdir(parents=True, exist_ok=True)] *)
Definition mkdir (t : tree) (locale : str) : tree :=
  match t !! locale with
  | Some _ => t
  | None => <[locale := ∅]> t
  end.

(** [(target / name).write_text(content)] *)
Definition write_text (t : tree) (locale name content : str) : tree :=
  <[locale := <[name := content]> (default ∅ (t !! locale))]> t.

(** [data[field]] for the fields set in the loop over [FIELDS]. *)
Definition data_of (content : str) : list (str * str) :=
  map (fun field => (field, field_value content field)) FIELDS.

Definition data_get (data : list (str * str)) (field : str) : str :=
  default [] (lookup_locale data field).

(** The body of the export loop for one [(lang_name, content)]. *)
Definition export_block (t : tree) (block : str * str) : tree :=
  let '(lang_name, content) := block in
  match lookup_locale LOCALES lang_name with
  | None => t
  | Some locale =>
      let t := mkdir t locale in
      let data := data_of content in
      let description := clean_desc (desc_text content) in
      let t := write_text t locale (lit "name.txt") (data_get data (lit "Name") ++ [NL]) in
      let t := write_text t locale (lit "subtitle.txt") (data_get data (lit "Subtitle") ++ [NL]) in
      let t := write_text t locale (lit "keywords.txt") (data_get data (lit "Keywords") ++ [NL]) in
      let t := write_text t locale (lit "promotional_text.txt")
                 (data_get data (lit "Promotional Text") ++ [NL]) in
      write_text t locale (lit "description.txt") description
  end.

(** The whole script on the text of the source file and the output
    directory as it was found. *)
Definition export (text : str) (t : tree) : tree :=
  foldl export_block t (pairs text).

End Exporter.

(** ** Python's insertion-ordered [dict] with string keys *)

Module Dict.
Import Py.

Section dict.
Context {V : Type}.

(** The items in insertion order; a key occurs once ([wf]). *)
Definition dict : Type := list (str * V).

Definition empty : dict := [].

(** [d.get(k)], [Some v] exactly when [k in d] *)
Fixpoint get (d : dict) (k : str) : option V :=
  match d with
  | [] => None
  | (k', v) :: d' => if str_eqb k' k then Some v else get d' k
  end.

(** [k in d] *)
Definition mem (d : dict) (k : str) : bool :=
  match get d k with Some _ => true | None => false end.

(** [d[k] = v]: a key already there keeps its place and takes the new
    value; a new key goes last. *)
Fixpoint set (d : dict) (k : str) (v : V) : dict :=
  match d with
  | [] => [(k, v)]
  | (k', v') :: d' =>
      if str_eqb k' k then (k, v) :: d' else (k', v') :: set d' k v
  end.

Definition keys (d : dict) : list str := map fst d.
Definition items (d : dict) : list (str * V) := d.
Definition len (d : dict) : nat := length d.

Definition wf (d : dict) : Prop := NoDup (keys d).
End dict.

Arguments dict : clear implicits.

End Dict.

(** ** The localization consolidator, [generate_localizable_xcstring.py] *)

Module Consolidator.
Import Py Re.

(** *** The file system and the two output streams *)

(** What a path names: a file with its text ([None] when its bytes are
  not UTF-8, so that reading raises), or a directory with the names
  [os.listdir] returns for it when the run begins, the one time the
  script lists a directory.  Paths are compared as strings, and
  rights of access play no part: what is there can be read, and a
  file can be put into every directory that is there. *)
Inductive node : Type :=
| File (text : option (list N))
| Dir (entries : list (list N)).

Abbreviation filesystem := (gmap (list N) node) (only parsing).

(** The exceptions that end a run, each with the path it is about. *)
Inductive exn : Type :=
| FileExistsError (path : list N)
| FileNotFoundError (path : list N)
| NotADirectoryError (path : list N)
| IsADirectoryError (path : list N)
| UnicodeDecodeError (path : list N).

Inductive res (A : Type) : Type :=
| Ok (a : A)
| Raise (e : exn).
Arguments Ok {A} a.
Arguments Raise {A} e.

(** What the script writes to [sys.stderr] and prints; each event
  carries the values its message is formatted from. *)
Inductive event : Type :=
| WarnUnparsed (path : list N) (lineno : nat) (raw_line : list N)
| WarnDuplicate (path : list N) (lineno : nat) (key : list N)
| ErrNoFiles (basename project_dir : list N)
| OutDiscovered (locs : list (list N))
| OutParsed (n : nat) (path : list N)
| OutSourceMissing (source_language : list N)
| OutWillWrite (output : list N) (nkeys nlocalized : nat)
| OutWrote (output : list N)
| OutDryRun
| OutMove (path backup_path : list N)
| OutNoBackup.

Record world : Type := World { fs : filesystem; log : list event }.

Definition emit (w : world) (e : event) : world :=
World (fs w) (log w ++ [e]).

(** [os.path.isfile] and [os.path.exists] *)
Definition isfile (f : filesystem) (path : str) : bool :=
match f !! path with Some (File _) => true | _ => false end.
Definition exists_ (f : filesystem) (path : str) : bool :=
match f !! path with Some _ => true | None => false end.

(** [os.listdir] *)
Definition listdir (f : filesystem) (path : str) : res (list str) :=
match f !! path with
| Some (Dir entries) => Ok entries
| Some (File _) => Raise (NotADirectoryError path)
| None => Raise (FileNotFoundError path)
end.

(** [os.path.join] of [posixpath]: a component that starts with [/]
  starts the path again. *)
Definition SEP : char := 47.
Definition join2 (path b : str) : str :=
if startswith b [SEP] then b
else if bool_decide (path = []) || endswith path [SEP] then path ++ b
else path ++ [SEP] ++ b.
Definition path_join (a : str) (ps : list str) : str := foldl join2 a ps.

(** The text a file opened with [open(path, 'r', encoding='utf-8')]
  yields line by line: [\n], [\r] and [\r\n] end a line and are read
  as [\n]. *)
Fixpoint readlines_from (cur : str) (x : str) : list str :=
match x with
| [] => match cur with [] => [] | _ => [rev cur] end
| c :: x' =>
    if c =? NL then rev (NL :: cur) :: readlines_from [] x'
    else if c =? CR then
      rev (NL :: cur) ::
        match x' with
        | d :: x'' =>
            if d =? NL then readlines_from [] x'' else readlines_from [] x'
        | [] => readlines_from [] x'
        end
    else readlines_from (c :: cur) x'
end.
Definition readlines (x : str) : list str := readlines_from [] x.

(** [os.path.dirname] of [posixpath]: the path up to its last [/],
  without the slashes it then ends with, unless it holds nothing else.
  Both helpers work on the reversed path. *)
Fixpoint drop_name (x : str) : str :=
match x with
| c :: x' => if c =? SEP then x else drop_name x'
| [] => []
end.
Fixpoint drop_seps (x : str) : str :=
match x with
| c :: x' => if c =? SEP then drop_seps x' else x
| [] => []
end.
Definition only_seps (x : str) : bool := forallb (fun c => c =? SEP) x.
Definition dirname (path : str) : str :=
let head := drop_name (rev path) in
if only_seps head then rev head else rev (drop_seps head).

(** What keeps [dir] from being used as a directory, as the exception
  the system call raises: nothing for the current directory and the
  root (the empty and the all-slash path) and for a directory of the
  file system; [NotADirectoryError] for a file; for a path that names
  nothing what keeps its own directory from being used, if anything,
  and [FileNotFoundError] otherwise.  With [fuel] the length of [dir]
  the walk up always reaches its end. *)
Fixpoint dir_error (fuel : nat) (f : filesystem) (dir : str)
  : option (str -> exn) :=
if only_seps dir then None
else
  match f !! dir with
  | Some (Dir _) => None
  | Some (File _) => Some NotADirectoryError
  | None =>
      match fuel with
      | O => Some FileNotFoundError
      | S fuel' =>
          match dir_error fuel' f (dirname dir) with
          | Some e => Some e
          | None => Some FileNotFoundError
          end
      end
  end.

(** What keeps a file from being put at [path]: the empty path names
  nothing, the directory the path lies in must be there, and a path
  that ends in [/] names a directory. *)
Definition create_error (f : filesystem) (path : str) : option exn :=
if bool_decide (path = []) then Some (FileNotFoundError path)
else
  match dir_error (length path) f (dirname path) with
  | Some e => Some (e path)
  | None =>
      if endswith path [SEP] then Some (IsADirectoryError path) else None
  end.

(** [open(output, 'w').write(text)]: the file is made, or replaced, in
  a directory that is there. *)
Definition write_file (f : filesystem) (path text : str) : res filesystem :=
match f !! path with
| Some (Dir _) => Raise (IsADirectoryError path)
| _ =>
    match create_error f path with
    | Some e => Raise e
    | None => Ok (<[path := File (Some text)]> f)
    end
end.

(** [os.rename(src, dst)], called when [dst] does not exist: what
  [src] names is moved to [dst], in a directory that is there. *)
Definition rename (f : filesystem) (src dst : str) : res filesystem :=
match f !! src with
| None => Raise (FileNotFoundError src)
| Some n =>
    match create_error f dst with
    | Some e => Raise e
    | None => Ok (<[dst := n]> (delete src f))
    end
end.

(** *** Parsing one [.strings] file *)

Definition QUOTE : char := 34.
Definition BACKSLASH : char := 92.

(** One character of a quoted text: a backslash with the character
  after it, or a character that is neither a quote nor a backslash. *)
Definition QUOTED_ITEM : regex :=
Alt (Seq (Chr BACKSLASH) Dot) (NoneOf [QUOTE; BACKSLASH]).

(** [STRING_LINE_RE]: white space, the quoted key (group [key], here 1,
  one or more items), [=], the quoted value (group [value], here 2),
  [;] and an optional [//] comment up to the end, with white space
  allowed between them. *)
Definition STRING_LINE_RE : regex :=
Seq (Star Space)
 (Seq (Chr QUOTE) (Seq (Group 1 (Plus QUOTED_ITEM)) (Seq (Chr QUOTE)
 (Seq (Star Space) (Seq (Chr 61) (Seq (Star Space)
 (Seq (Chr QUOTE) (Seq (Group 2 (Star QUOTED_ITEM)) (Seq (Chr QUOTE)
 (Seq (Star Space) (Seq (Chr 59) (Seq (Star Space)
 (Seq (Opt (Seq (Lit (lit "//")) (Star Dot))) Eol))))))))))))).

(** [COMMENT_RE]: a line that is one block comment. *)
Definition COMMENT_RE : regex :=
Seq Bol (Seq (Star Space) (Seq (Lit (lit "/*")) (Seq (Star Dot)
  (Seq (Lit (lit "*/")) (Seq (Star Space) Eol))))).

(** The four replacements of [unescape], in the order of the source. *)
Definition unescape (x : str) : str :=
let x := replace x [BACKSLASH; QUOTE] [QUOTE] in
let x := replace x [BACKSLASH; 110] [NL] in
let x := replace x [BACKSLASH; NL] [NL] in
replace x [BACKSLASH; BACKSLASH] [BACKSLASH].

(** What one line of the file is to the parser. *)
Inductive line_kind : Type :=
| Ignored
| Unparsed
| Entry (key value : list N).

Definition classify (raw_line : str) : line_kind :=
let line := strip raw_line in
if bool_decide (line = []) || startswith line (lit "//")
   || bool_decide (is_Some (rematch false COMMENT_RE line))
then Ignored
else
  match rematch false STRING_LINE_RE line with
  | None => Unparsed
  | Some m =>
      Entry (unescape (default [] (group line m 1)))
            (unescape (default [] (group line m 2)))
  end.

(** The body of the loop over the numbered lines: the dictionary built
  so far and the warnings written so far. *)
Definition parse_line (path : str)
  (acc : Dict.dict (list N) * list event) (numbered : nat * str)
  : Dict.dict (list N) * list event :=
let '(data, warns) := acc in
let '(lineno, raw_line) := numbered in
match classify raw_line with
| Ignored => (data, warns)
| Unparsed => (data, warns ++ [WarnUnparsed path lineno raw_line])
| Entry key value =>
    let warns :=
      if Dict.mem data key then warns ++ [WarnDuplicate path lineno key]
      else warns in
    (Dict.set data key value, warns)
end.

(** [enumerate(f, 1)] *)
Definition enumerate1 {A} (l : list A) : list (nat * A) :=
zip (seq 1 (length l)) l.

Definition parse_lines (path : str) (lines : list str)
  : Dict.dict (list N) * list event :=
foldl (parse_line path) (Dict.empty, []) (enumerate1 lines).

Definition parse_strings_file (f : filesystem) (path : str)
  : res (Dict.dict (list N) * list event) :=
if negb (isfile f path) then Ok (Dict.empty, [])
else
  match f !! path with
  | Some (File (Some text)) => Ok (parse_lines path (readlines text))
  | _ => Raise (UnicodeDecodeError path)
  end.

(** *** Discovery *)

Definition LPROJ : str := lit ".lproj".

Fixpoint discover_entries (f : filesystem) (project_dir basename : str)
  (entries : list str) : list (str * str) :=
match entries with
| [] => []
| entry :: entries' =>
    let more := discover_entries f project_dir basename entries' in
    if negb (endswith entry LPROJ) then more
    else
      let loc := take (length entry - 6) entry in
      let strings_path :=
        path_join project_dir [entry; basename ++ lit ".strings"] in
      if isfile f strings_path then (loc, strings_path) :: more else more
end.

Definition discover_locales (f : filesystem) (project_dir basename : str)
  : res (list (str * str)) :=
match listdir f project_dir with
| Raise e => Raise e
| Ok entries => Ok (discover_entries f project_dir basename (sorted entries))
end.

(** *** The catalog *)

(** [{"stringUnit": {"state": ..., "value": ...}}] *)
Record string_unit : Type := StringUnit { state : list N; value : list N }.

(** [{"extractionState": ..., "localizations": {lang: ...}}] *)
Record entry : Type :=
CatalogEntry { extractionState : list N;
               localizations : Dict.dict string_unit }.

(** [{"sourceLanguage": ..., "version": ..., "strings": {key: ...}}] *)
Record xcstrings : Type :=
Catalog { sourceLanguage : list N;
          version : list N;
          strings : Dict.dict entry }.

(** Lines 104 to 109: the keys of one further locale, each appended
  unless it is already in [ordered_keys]. *)
Definition add_keys (ordered_keys : list str) (ks : list str) : list str :=
foldl (fun acc k => if bool_decide (k ∈ acc) then acc else acc ++ [k])
      ordered_keys ks.

Definition collect_keys (locales_data : Dict.dict (Dict.dict (list N)))
  (source_language : str) : list str :=
let ordered_keys :=
  match Dict.get locales_data source_language with
  | Some kv => Dict.keys kv
  | None => []
  end in
foldl (fun acc item =>
         if str_eqb (fst item) source_language then acc
         else add_keys acc (Dict.keys (snd item)))
      ordered_keys (Dict.items locales_data).

(** Lines 113 to 121: the localizations of one key. *)
Definition locs_of (locales_data : Dict.dict (Dict.dict (list N)))
  (key : str) : Dict.dict string_unit :=
foldl (fun locs item =>
         match Dict.get (snd item) key with
         | Some v => Dict.set locs (fst item) (StringUnit (lit "translated") v)
         | None => locs
         end)
      Dict.empty (Dict.items locales_data).

Definition build_xcstring (locales_data : Dict.dict (Dict.dict (list N)))
  (source_language version : str) : xcstrings :=
let ordered_keys := collect_keys locales_data source_language in
let strings_obj :=
  foldl (fun so key =>
           Dict.set so key
             (CatalogEntry (lit "manual") (locs_of locales_data key)))
        Dict.empty ordered_keys in
Catalog source_language version strings_obj.

(** *** [json.dumps(xc, ensure_ascii=False, indent=2)] *)

#[local] Unset Elimination Schemes.
Inductive json : Type :=
| JStr (x : list N)
| JObj (members : list (list N * json)).
#[local] Set Elimination Schemes.

Definition hex_digit (n : N) : char := if n <? 10 then 48 + n else 87 + n.

Definition json_escape (c : char) : str :=
if c =? QUOTE then [BACKSLASH; QUOTE]
else if c =? BACKSLASH then [BACKSLASH; BACKSLASH]
else if c =? 10 then [BACKSLASH; 110]
else if c =? 13 then [BACKSLASH; 114]
else if c =? 9 then [BACKSLASH; 116]
else if c =? 8 then [BACKSLASH; 98]
else if c =? 12 then [BACKSLASH; 102]
else if c <? 32 then
  BACKSLASH :: lit "u00" ++ [hex_digit (c / 16); hex_digit (c mod 16)]
else [c].

Definition json_string (x : str) : str :=
QUOTE :: flat_map json_escape x ++ [QUOTE].

Definition indent_of (level : nat) : str := repeat 32 (2 * level).

Fixpoint dumps (level : nat) (j : json) : str :=
match j with
| JStr x => json_string x
| JObj [] => lit "{}"
| JObj members =>
    let member (kv : list N * json) : str :=
      json_string (fst kv) ++ lit ": " ++ dumps (S level) (snd kv) in
    lit "{" ++ [NL] ++ indent_of (S level)
      ++ join (lit "," ++ [NL] ++ indent_of (S level)) (map member members)
      ++ [NL] ++ indent_of level ++ lit "}"
end.

Definition unit_json (u : string_unit) : json :=
JObj [ (lit "stringUnit",
        JObj [ (lit "state", JStr (state u)); (lit "value", JStr (value u)) ]) ].

Definition entry_json (e : entry) : json :=
JObj [ (lit "extractionState", JStr (extractionState e));
       (lit "localizations",
        JObj (map (fun kv => (fst kv, unit_json (snd kv))) (localizations e))) ].

Definition catalog_json (xc : xcstrings) : json :=
JObj [ (lit "sourceLanguage", JStr (sourceLanguage xc));
       (lit "version", JStr (version xc));
       (lit "strings",
        JObj (map (fun kv => (fst kv, entry_json (snd kv))) (strings xc))) ].

Definition json_dumps (xc : xcstrings) : str := dumps 0 (catalog_json xc).

(** *** The run: a computation on the world that returns or raises *)

Definition M (A : Type) : Type := world -> res A * world.

Definition ret {A} (a : A) : M A := fun w => (Ok a, w).
Definition raise {A} (e : exn) : M A := fun w => (Raise e, w).
Definition bind {A B} (c : M A) (k : A -> M B) : M B :=
fun w =>
  match c w with
  | (Ok a, w') => k a w'
  | (Raise e, w') => (Raise e, w')
  end.
Definition print (e : event) : M unit := fun w => (Ok tt, emit w e).
Definition prints (es : list event) : M unit :=
fun w => (Ok tt, World (fs w) (log w ++ es)).
Definition lift {A} (op : filesystem -> res A) : M A :=
fun w => (op (fs w), w).
Definition set_fs (f : filesystem) : M unit := fun w => (Ok tt, World f (log w)).

#[global] Instance M_ret : MRet M := @ret.
#[global] Instance M_bind : MBind M := fun A B k c => bind c k.

Fixpoint rename_originals (locales : list (str * str)) (backup_ext : str)
  (dry_run skip_if_exists : bool) : M unit :=
match locales with
| [] => ret tt
| (loc, path) :: locales' =>
    let backup_path := path ++ backup_ext in
    let continue := rename_originals locales' backup_ext dry_run skip_if_exists in
    there ← lift (fun f => Ok (exists_ f backup_path));
    if there : bool then
      if skip_if_exists then continue
      else raise (FileExistsError backup_path)
    else
      print (OutMove path backup_path) ;;
      if dry_run then continue
      else
        f' ← lift (fun f => rename f path backup_path);
        set_fs f' ;;
        continue
end.

Record arguments : Type :=
Arguments_ { project_dir : list N;
             basename : list N;
             output : option (list N);
             source_language : list N;
             version_arg : list N;
             backup_extension : list N;
             dry_run : bool;
             no_backup : bool;
             keep_backups : bool }.

(** Lines 171 to 174 *)
Fixpoint load_locales (locales : list (str * str))
  (locales_data : Dict.dict (Dict.dict (list N)))
  : M (Dict.dict (Dict.dict (list N))) :=
match locales with
| [] => ret locales_data
| (loc, path) :: locales' =>
    parsed ← lift (fun f => parse_strings_file f path);
    prints (snd parsed) ;;
    let locales_data := Dict.set locales_data loc (fst parsed) in
    print (OutParsed (Dict.len (fst parsed)) path) ;;
    load_locales locales' locales_data
end.

(** [main] on the parsed command line; it returns the exit status. *)
Definition main (args : arguments) : M nat :=
let output :=
  match output args with
  | Some (c :: o) => c :: o
  | _ => path_join (project_dir args) [basename args ++ lit ".xcstrings"]
  end in
locales ← lift (fun f => discover_locales f (project_dir args) (basename args));
match locales with
| [] => print (ErrNoFiles (basename args) (project_dir args)) ;; ret 1%nat
| _ =>
    print (OutDiscovered (map fst locales)) ;;
    locales_data ← load_locales locales Dict.empty;
    (if Dict.mem locales_data (source_language args) then ret tt
     else print (OutSourceMissing (source_language args))) ;;
    let xc := build_xcstring locales_data (source_language args) (version_arg args) in
    let json_text := json_dumps xc in
    print (OutWillWrite output (Dict.len (strings xc))
             (list_sum (map (fun kv => Dict.len (localizations (snd kv)))
                            (Dict.items (strings xc))))) ;;
    (if dry_run args then print OutDryRun
     else
       f' ← lift (fun f => write_file f output json_text);
       set_fs f' ;;
       print (OutWrote output)) ;;
    (if no_backup args then print OutNoBackup
     else rename_originals locales (backup_extension args)
            (dry_run args) (keep_backups args)) ;;
    ret 0%nat
end.

(** [sys.exit(main())]: the status [main] returns, and 1 when an
  exception ends the run. *)
Definition exit_status (r : res nat) : nat :=
match r with
| Ok n => n
| Raise _ => 1%nat
end.

End Consolidator.

(** ** Notions of the specification *)

Module Spec.
Import Py Consolidator.

(** The keys of [l] in the order in which they are first seen: what
  comes after the first occurrence of a key does not count. *)
Fixpoint first_seen (l : list (list N)) : list (list N) :=
match l with
| [] => []
| k :: l' => k :: filter (λ x, x ≠ k) (first_seen l')
end.

(** The entry a line of a [.strings] file holds, if it is a valid
  entry line. *)
Definition entry_of (raw_line : list N) : option (list N * list N) :=
match classify raw_line with
| Entry key value => Some (key, value)
| _ => None
end.

Definition entries_of (lines : list (list N)) : list (list N * list N) :=
omap entry_of lines.

(** The value of the last entry for [k]. *)
Definition last_value (k : list N) (es : list (list N * list N)) : option (list N) :=
snd <$> last (filter (λ e, e.1 = k) es).

(** [data[key] = value] for one entry. *)
Definition set_entry (d : Dict.dict (list N)) (e : list N * list N)
  : Dict.dict (list N) :=
Dict.set d e.1 e.2.

(** The loop of [parse_strings_file] from line number [s] on. *)
Definition parse_from (path : list N) (s : nat)
  (acc : Dict.dict (list N) * list event) (ls : list (list N))
  : Dict.dict (list N) * list event :=
foldl (parse_line path) acc (zip (seq s (length ls)) ls).

(** The lines [parse_strings_file] reads at [path]; none when there is
  no such file. *)
Definition file_lines (f : gmap (list N) node) (path : list N) : list (list N) :=
match f !! path with
| Some (File (Some text)) => readlines text
| _ => []
end.

(** The keys of the source-language catalog, in its order. *)
Definition source_keys (ld : Dict.dict (Dict.dict (list N))) (src : list N)
  : list (list N) :=
match Dict.get ld src with
| Some kv => Dict.keys kv
| None => []
end.

(** The keys of the other locales, locale after locale. *)
Definition other_keys (ld : Dict.dict (Dict.dict (list N))) (src : list N)
  : list (list N) :=
concat (map (λ item, Dict.keys item.2)
            (filter (λ item, item.1 ≠ src) (Dict.items ld))).

(** The locales whose catalog holds [key], each with the value it has
  there. *)
Definition present_in (ld : Dict.dict (Dict.dict (list N))) (key : list N)
  : Dict.dict string_unit :=
omap (λ item, (λ v, (item.1, StringUnit (lit "translated") v))
                <$> Dict.get item.2 key) (Dict.items ld).

(** [x <= y] on strings. *)
Definition str_le (x y : list N) : Prop := str_leb x y = true.

(** The path at which [discover_locales] looks for the resource file of
  a directory entry. *)
Definition strings_path (project_dir basename entry : list N) : list N :=
path_join project_dir [entry; basename ++ lit ".strings"].

(** A directory entry that [discover_locales] keeps. *)
Definition discovered (f : gmap (list N) node) (project_dir basename entry : list N)
  : Prop :=
endswith entry LPROJ = true
∧ isfile f (strings_path project_dir basename entry) = true.

#[global] Instance discovered_dec f project_dir basename entry :
Decision (discovered f project_dir basename entry).
Proof. unfold discovered. apply _. Defined.

(** [entry[:-6]] *)
Definition take_suffix (entry : list N) : list N :=
take (length entry - 6) entry.

(** A language block as it stands in the source text: the header line
  [== name ==], with the white space before and after the name, and
  the text that follows the line. *)
Record block : Type :=
Block { gap_before : list N;
        lang : list N;
        gap_after : list N;
        body : list N }.









(** The locale codes of the blocks whose language name is in the locale
  table. *)
Definition locale_codes (blocks : list (list N * list N)) : list (list N) :=
omap (λ block, Exporter.lookup_locale Exporter.LOCALES block.1) blocks.

(** The five files of a locale directory. *)
Definition FILE_NAMES : gset (list N) :=
list_to_set [ lit "name.txt"; lit "subtitle.txt"; lit "keywords.txt";
              lit "promotional_text.txt"; lit "description.txt" ].


(** The path [main] writes the catalog to. *)
Definition output_path (args : arguments) : list N :=
match output args with
| Some (c :: o) => c :: o
| _ => path_join (project_dir args) [basename args ++ lit ".xcstrings"]
end.

(** Every discovered file can be read. *)
Definition readable (f : gmap (list N) node) (locales : list (list N * list N))
  : Prop :=
∀ loc path, (loc, path) ∈ locales ->
  ∃ parsed, parse_strings_file f path = Ok parsed.

(** The directory a path lies in is there: the current directory, the
  root, or a directory of the file system. *)
Definition in_directory (f : gmap (list N) node) (path : list N) : Prop :=
only_seps (dirname path) = true
∨ ∃ entries, f !! dirname path = Some (Dir entries).

(** A file can be put at the path: it is a name, and the directory it
  lies in is there. *)
Definition creatable (f : gmap (list N) node) (path : list N) : Prop :=
path ≠ [] ∧ endswith path [SEP] = false ∧ in_directory f path.

(** The output file can be written: its path is not that of a
  directory, and a file can be put there. *)
Definition writable (f : gmap (list N) node) (path : list N) : Prop :=
(∀ entries, f !! path ≠ Some (Dir entries)) ∧ creatable f path.

(** The steps of [main] after the files are loaded. *)
Definition write_step (args : arguments) (json_text : list N) : M unit :=
if dry_run args then print OutDryRun
else
  f' ← lift (fun f => write_file f (output_path args) json_text);
  set_fs f';; print (OutWrote (output_path args)).

Definition backup_step (args : arguments) (locales : list (list N * list N))
  : M unit :=
if no_backup args then print OutNoBackup
else rename_originals locales (backup_extension args)
       (dry_run args) (keep_backups args).



End Spec.

(** ** Sample inputs *)

Module Samples.
Import Py Consolidator.

(** An entry line ["key" = "value";] with its newline. *)
Definition entry_line (k v : list N) : list N :=
[QUOTE] ++ k ++ [QUOTE] ++ lit " = " ++ [QUOTE] ++ v ++ [QUOTE]
  ++ lit ";" ++ [NL].

Definition en_path : list N := lit "ChessDuo/en.lproj/Localizable.strings".
Definition de_path : list N := lit "ChessDuo/de.lproj/Localizable.strings".

(** A file in which the key [x] comes twice, around another key. *)
Definition dup_text : list N :=
entry_line (lit "x") (lit "a") ++ entry_line (lit "y") (lit "c")
  ++ entry_line (lit "x") (lit "b").

Definition dup_fs : gmap (list N) node :=
<[lit "ChessDuo" := Dir [lit "en.lproj"]]>
  (<[lit "ChessDuo/en.lproj" := Dir [lit "Localizable.strings"]]>
     (<[en_path := File (Some dup_text)]> ∅)).

(** Two parsed catalogs: German has a key of its own and lacks one. *)
Definition en_catalog : Dict.dict (list N) :=
[ (lit "Hello", lit "Hi"); (lit "Bye", lit "Bye") ].
Definition de_catalog : Dict.dict (list N) :=
[ (lit "Neu", lit "Neu"); (lit "Hello", lit "Hallo") ].
Definition two_locales : Dict.dict (Dict.dict (list N)) :=
[ (lit "de", de_catalog); (lit "en", en_catalog) ].

(** The project after the German file has gone: it was discovered, and
  is no longer there when it is parsed. *)
Definition gone_fs : gmap (list N) node :=
<[lit "ChessDuo" := Dir [lit "de.lproj"; lit "en.lproj"]]>
  (<[lit "ChessDuo/de.lproj" := Dir []]>
     (<[lit "ChessDuo/en.lproj" := Dir [lit "Localizable.strings"]]>
        (<[en_path := File (Some dup_text)]> ∅))).
Definition gone_locales : list (list N * list N) :=
[ (lit "de", de_path); (lit "en", en_path) ].

(** A project with the locales [zh] and [zh-Hans]. *)
Definition zh_path : list N := lit "ChessDuo/zh.lproj/Localizable.strings".
Definition zh_Hans_path : list N :=
lit "ChessDuo/zh-Hans.lproj/Localizable.strings".
Definition zh_fs : gmap (list N) node :=
<[lit "ChessDuo" := Dir [lit "zh.lproj"; lit "zh-Hans.lproj"]]>
  (<[lit "ChessDuo/zh.lproj" := Dir [lit "Localizable.strings"]]>
     (<[lit "ChessDuo/zh-Hans.lproj" := Dir [lit "Localizable.strings"]]>
        (<[zh_path := File (Some (entry_line (lit "k") (lit "v")))]>
           (<[zh_Hans_path := File (Some (entry_line (lit "k") (lit "w")))]> ∅)))).

(** A source text with a German and an English block, and one in which
  the German block comes twice. *)
Definition header (lang_name : list N) : list N :=
[NL] ++ lit "== " ++ lang_name ++ lit " ==" ++ [NL].
Definition german_block : list N :=
lit "Name: Schach" ++ [NL] ++ lit "Subtitle: Zu zweit" ++ [NL].
Definition english_block : list N :=
lit "Name: Chess" ++ [NL] ++ lit "Subtitle: For two" ++ [NL].
Definition german_twice : list N :=
header (lit "German") ++ german_block ++ header (lit "German") ++ english_block.




Definition default_args : arguments :=
Arguments_ (lit "ChessDuo") (lit "Localizable") None (lit "en") (lit "1.0")
  (lit ".bak") false false false.
Definition no_backup_args : arguments :=
Arguments_ (lit "ChessDuo") (lit "Localizable") None (lit "en") (lit "1.0")
  (lit ".bak") false true false.

(** A block whose promotional text stands on the line after its
  marker, and the text of the file around it. *)
Definition promo_block : list N :=
lit "Name: Chess" ++ [NL] ++ lit "Promotional Text:" ++ [NL]
  ++ lit "Play together" ++ [NL] ++ lit "A board for two." ++ [NL].
Definition promo_text : list N := header (lit "English") ++ promo_block.

(** The entry line ["path" = "C:\\new";]: in the value, an escaped
  backslash and then the letter n. *)
Definition backslash_line : list N :=
entry_line (lit "path") (lit "C:" ++ [BACKSLASH; BACKSLASH] ++ lit "new").

(** Two paragraphs with a blank line between them. *)
Definition two_paragraphs : list N :=
lit "First." ++ [NL; NL] ++ lit "Second." ++ [NL].

End Samples.

(** ** Further notions *)

Module Notions.
Import Py Re Consolidator.

(** The warnings about a duplicate key among the events. *)
Definition is_duplicate_warning (e : event) : bool :=
  match e with
  | WarnDuplicate _ _ _ => true
  | _ => false
  end.

Definition duplicate_warnings (es : list event) : nat :=
  length (List.filter is_duplicate_warning es).


(** A character from U+0020 on: none of U+0000 to U+001F, which a JSON
    string may not hold as they are.  (The control characters U+007F
    and U+0080 to U+009F are from U+0020 on, and [json.dumps] writes
    them as they are.)  And such a character or a newline. *)
Definition from_space (c : N) : Prop := 32 <= c.
Definition from_space_or_newline (c : N) : Prop := c = NL ∨ 32 <= c.

(** A character that [json.dumps] writes as it is. *)
Definition unescaped (c : N) : Prop := 32 <= c ∧ c ≠ QUOTE ∧ c ≠ BACKSLASH.


(** The files of a locale directory after the five writes for a block
    with the text [content], over the files [old] that were there. *)
Definition block_files (content : list N) (old : gmap (list N) (list N))
    : gmap (list N) (list N) :=
  <[lit "description.txt" := Exporter.clean_desc (Exporter.desc_text content)]>
  (<[lit "promotional_text.txt" :=
       Exporter.field_value content (lit "Promotional Text") ++ [NL]]>
  (<[lit "keywords.txt" := Exporter.field_value content (lit "Keywords") ++ [NL]]>
  (<[lit "subtitle.txt" := Exporter.field_value content (lit "Subtitle") ++ [NL]]>
  (<[lit "name.txt" := Exporter.field_value content (lit "Name") ++ [NL]]> old)))).

(** A text that neither starts nor ends with white space. *)
Definition trimmed (x : list N) : Prop :=
  (∀ c, head x = Some c -> isspace c = false)
  ∧ (∀ c, last x = Some c -> isspace c = false).


(** The loop of a greedy repetition in [Re.run], under a name. *)
Section star_loop.
Variables (ml : bool) (r1 : regex) (k : cursor -> captures -> option outcome).

Fixpoint star_loop (n : nat) (cu : cursor) (cs : captures) : option outcome :=
  match n with
  | O => k cu cs
  | S n' =>
      match run ml r1 cu cs (fun cu' cs' =>
              if (pos cu <? pos cu')%nat then star_loop n' cu' cs' else None) with
      | Some o => Some o
      | None => k cu cs
      end
  end.
End star_loop.

(** The loop of a lazy repetition in [Re.run], under a name. *)
Section lazy_loop.
Variables (ml : bool) (r1 : regex) (k : cursor -> captures -> option outcome).

End lazy_loop.

(** The character before the cursor once it has passed over [x]. *)
Definition prev_after (p : option N) (x : list N) : option N :=
  match last x with
  | Some c => Some c
  | None => p
  end.

(** A character that stands for itself between the quotes of an entry
    line. *)
Definition plain_char (c : N) : Prop := c ≠ QUOTE ∧ c ≠ BACKSLASH.

(** The entry line of a key and a value, with its line end:
    the key in quotes, [ = ], the value in quotes and [;]. *)
Definition entry_line (k v : list N) : list N :=
  [QUOTE] ++ k ++ [QUOTE] ++ lit " = " ++ [QUOTE] ++ v ++ [QUOTE]
    ++ lit ";" ++ [NL].


(** The entry line as the parser matches it: stripped of its line end. *)
Definition entry_text (k v : list N) : list N :=
  QUOTE :: k ++ QUOTE :: 32 :: 61 :: 32 :: QUOTE :: v ++ [QUOTE; 59].


(** A character of a key or value that needs no escape and ends no
    line. *)
Definition safe_char (c : N) : Prop :=
  c ≠ QUOTE ∧ c ≠ BACKSLASH ∧ c ≠ NL ∧ c ≠ CR.

(** The text of a [.strings] file with one entry line for each item of
    a dictionary. *)
Definition strings_text (d : Dict.dict (list N)) : list N :=
  concat (map (λ kv, entry_line kv.1 kv.2) (Dict.items d)).


(** The pattern of [clean_desc]: white space at the start of a line. *)
Definition INDENT_RE : regex := Seq Bol (Plus Space).

(** The white space a text starts with. *)
Fixpoint ws_run (x : list N) : list N :=
  match x with
  | c :: x' => if isspace c then c :: ws_run x' else []
  | [] => []
  end.

(** Whether a cursor with the character [p] before it stands at the
    start of a line. *)
Definition bol_of (p : option N) : bool :=
  match p with
  | None => true
  | Some c => c =? NL
  end.

(** The text without the white space at the start of its lines; [bol]
    says whether the text begins at the start of a line.  White space
    at the start of a line is dropped up to the next character that is
    none, line ends included: a blank line goes with it. *)
Fixpoint dedent (bol : bool) (x : list N) : list N :=
  match x with
  | [] => []
  | c :: x' =>
      if bol && isspace c then dedent true x'
      else c :: dedent (c =? NL) x'
  end.

End Notions.

Import Py Re Dict Exporter Consolidator.

(** * Properties *)

(** ** The ordered dictionary *)

Lemma str_eqb_spec (x y : list N) : reflect (x = y) (str_eqb x y).
Proof. unfold str_eqb. apply bool_decide_reflect. Qed.

Lemma str_eqb_refl (x : list N) : str_eqb x x = true.
Proof. by destruct (str_eqb_spec x x). Qed.

Lemma str_eqb_ne (x y : list N) : x ≠ y -> str_eqb x y = false.
Proof. by destruct (str_eqb_spec x y). Qed.

Ltac case_str_eqb :=
match goal with
| |- context [str_eqb ?x ?y] => destruct (str_eqb_spec x y); try subst
end.

Section dict_facts.
Context {V : Type}.
Implicit Types (d : Dict.dict V) (k : list N) (v : V).

Lemma get_set_eq d k v : Dict.get (Dict.set d k v) k = Some v.
Proof.
induction d as [|[k' v'] d IH]; simpl.
- by rewrite str_eqb_refl.
- case_str_eqb; simpl; [by rewrite str_eqb_refl | by rewrite str_eqb_ne].
Qed.

Lemma get_set_ne d k k' v : k ≠ k' -> Dict.get (Dict.set d k v) k' = Dict.get d k'.
Proof.
intros Hne. induction d as [|[k0 v0] d IH]; simpl.
- by rewrite str_eqb_ne.
- case_str_eqb; simpl.
+ by rewrite !str_eqb_ne.
+ by rewrite IH.
Qed.

Lemma get_Some_keys d k v : Dict.get d k = Some v -> k ∈ Dict.keys d.
Proof.
induction d as [|[k0 v0] d IH]; simpl; [done|].
case_str_eqb.
- intros _. apply list_elem_of_here.
- intros H. apply list_elem_of_further. by apply IH.
Qed.

Lemma get_None_keys d k : Dict.get d k = None <-> k ∉ Dict.keys d.
Proof.
induction d as [|[k0 v0] d IH]; simpl.
- split; [intros _; apply not_elem_of_nil | done].
- rewrite not_elem_of_cons. case_str_eqb.
+ split; [done | by intros [Hne _]].
+ rewrite IH. split; [intros ?; split; [congruence | done] | by intros [_ ?]].
Qed.

Lemma mem_keys d k : Dict.mem d k = true <-> k ∈ Dict.keys d.
Proof.
unfold Dict.mem. destruct (Dict.get d k) as [v|] eqn:Hg.
- split; [intros _; by eapply get_Some_keys | done].
- split; [done | intros Hin; by apply get_None_keys in Hg].
Qed.

Lemma get_items d k v : Dict.wf d -> (k, v) ∈ d -> Dict.get d k = Some v.
Proof.
unfold Dict.wf. induction d as [|[k0 v0] d IH]; simpl.
- intros _ H. by apply elem_of_nil in H.
- rewrite NoDup_cons. intros [Hnin Hnd] [Heq|Hin]%elem_of_cons.
+ simplify_eq. by rewrite str_eqb_refl.
+ case_str_eqb; [|by apply IH].
  exfalso. apply Hnin. apply list_elem_of_fmap. by exists (k, v).
Qed.

Lemma items_get d k v : Dict.get d k = Some v -> (k, v) ∈ d.
Proof.
induction d as [|[k0 v0] d IH]; simpl; [done|].
case_str_eqb.
- intros [= ->]. apply list_elem_of_here.
- intros H. apply list_elem_of_further. by apply IH.
Qed.

Lemma keys_set_old d k v : k ∈ Dict.keys d -> Dict.keys (Dict.set d k v) = Dict.keys d.
Proof.
induction d as [|[k0 v0] d IH]; simpl.
- intros H. by apply elem_of_nil in H.
- case_str_eqb; simpl; [done|].
intros [->|Hin]%elem_of_cons; [done|]. by rewrite IH.
Qed.

Lemma set_new d k v : k ∉ Dict.keys d -> Dict.set d k v = d ++ [(k, v)].
Proof.
induction d as [|[k0 v0] d IH]; simpl; [done|].
rewrite not_elem_of_cons. intros [Hne Hnin].
rewrite str_eqb_ne by done. by rewrite IH.
Qed.

Lemma keys_set_new d k v : k ∉ Dict.keys d -> Dict.keys (Dict.set d k v) = Dict.keys d ++ [k].
Proof. intros H. rewrite set_new by done. unfold Dict.keys. by rewrite map_app. Qed.

Lemma wf_set d k v : Dict.wf d -> Dict.wf (Dict.set d k v).
Proof.
unfold Dict.wf. intros Hwf. destruct (decide (k ∈ Dict.keys d)) as [Hin|Hnin].
- by rewrite keys_set_old.
- rewrite keys_set_new by done. apply NoDup_app. split_and!; [done | | apply NoDup_singleton].
intros x Hx ->%list_elem_of_singleton. done.
Qed.
End dict_facts.

(** ** Keys in first-seen order *)

Section first_seen_facts.
Import Spec.
Implicit Types (l acc : list (list N)) (k : list N).

Lemma filter_all (P : list N -> Prop) `{!∀ x, Decision (P x)} l :
  (∀ x, x ∈ l -> P x) -> filter P l = l.
Proof.
  induction l as [|x l IH]; intros Hall; [done|].
  rewrite filter_cons_True by (apply Hall, list_elem_of_here).
  f_equal. apply IH. intros y Hy. by apply Hall, list_elem_of_further.
Qed.

Lemma first_seen_filter (P : list N -> Prop) `{!∀ x, Decision (P x)} l :
  first_seen (filter P l) = filter P (first_seen l).
Proof.
  induction l as [|k l IH]; [done|].
  rewrite filter_cons. destruct (decide (P k)) as [HP|HP]; simpl.
  - rewrite filter_cons_True by done. f_equal.
rewrite IH, !list_filter_filter. apply list_filter_iff. tauto.
  - rewrite filter_cons_False by done.
rewrite IH, list_filter_filter. apply list_filter_iff.
intros x. split; [|tauto]. intros HPx. split; [done|]. by intros ->.
Qed.

Lemma first_seen_subseteq l k : k ∈ first_seen l <-> k ∈ l.
Proof.
  induction l as [|x l IH]; simpl; [done|].
  rewrite !elem_of_cons, list_elem_of_filter, IH.
  destruct (decide (k = x)); tauto.
Qed.

Lemma first_seen_NoDup l : NoDup (first_seen l).
Proof.
  induction l as [|x l IH]; simpl; [apply NoDup_nil_2|].
  apply NoDup_cons. split.
  - rewrite list_elem_of_filter. tauto.
  - by apply NoDup_filter.
Qed.

Lemma first_seen_id l : NoDup l -> first_seen l = l.
Proof.
  induction l as [|x l IH]; simpl; [done|].
  rewrite NoDup_cons. intros [Hx Hl]. rewrite IH by done. f_equal.
  apply filter_all. by intros y Hy ->.
Qed.

Lemma add_keys_first_seen acc ks :
  add_keys acc ks = acc ++ first_seen (filter (λ k, k ∉ acc) ks).
Proof.
  unfold add_keys. revert acc. induction ks as [|k ks IH]; intros acc; simpl.
  - by rewrite app_nil_r.
  - rewrite filter_cons. case_bool_decide as Hk.
+ rewrite decide_False by tauto. apply IH.
+ rewrite decide_True by done. rewrite IH. simpl.
rewrite <- app_assoc. simpl. do 2 f_equal.
rewrite <- first_seen_filter, list_filter_filter. f_equal.
apply list_filter_iff. intros x.
rewrite not_elem_of_app, list_elem_of_singleton. tauto.
Qed.
End first_seen_facts.

(** ** Parsing a [.strings] file *)

Section parse_facts.
Import Spec.
Implicit Types (d : Dict.dict (list N)) (k : list N) (es : list (list N * list N)).

Lemma parse_lines_from path ls :
  parse_lines path ls = parse_from path 1 (Dict.empty, []) ls.
Proof. done. Qed.

Lemma parse_from_cons path s acc l ls :
  parse_from path s acc (l :: ls)
  = parse_from path (S s) (parse_line path acc (s, l)) ls.
Proof. done. Qed.

Lemma parse_from_app path s acc l1 l2 :
  parse_from path s acc (l1 ++ l2)
  = parse_from path (s + length l1) (parse_from path s acc l1) l2.
Proof.
  revert s acc. induction l1 as [|l l1 IH]; intros s acc.
  - simpl. by rewrite Nat.add_0_r.
  - rewrite <- app_comm_cons, !parse_from_cons, IH. simpl.
    by rewrite Nat.add_succ_r.
Qed.

Lemma parse_line_data path d w n l :
  (parse_line path (d, w) (n, l)).1
  = match entry_of l with Some e => set_entry d e | None => d end.
Proof. unfold parse_line, entry_of. by destruct (classify l). Qed.

Lemma parse_from_data path s d w ls :
  (parse_from path s (d, w) ls).1 = foldl set_entry d (entries_of ls).
Proof.
  revert s d w. induction ls as [|l ls IH]; intros s d w; [done|].
  rewrite parse_from_cons.
  destruct (parse_line path (d, w) (s, l)) as [d' w'] eqn:Hstep.
  rewrite IH. pose proof (parse_line_data path d w s l) as Hd.
  rewrite Hstep in Hd. simpl in Hd. subst d'.
  unfold entries_of. simpl. by destruct (entry_of l).
Qed.

Lemma parse_line_warns path d w n l :
  ∃ w', (parse_line path (d, w) (n, l)).2 = w ++ w'.
Proof.
  unfold parse_line. destruct (classify l); simpl.
  - exists []. by rewrite app_nil_r.
  - by eexists.
  - destruct (Dict.mem d key); [by eexists | exists []; by rewrite app_nil_r].
Qed.

Lemma parse_from_warns path s d w ls :
  ∃ w', (parse_from path s (d, w) ls).2 = w ++ w'.
Proof.
  revert s d w. induction ls as [|l ls IH]; intros s d w.
  - exists []. simpl. by rewrite app_nil_r.
  - rewrite parse_from_cons.
    destruct (parse_line path (d, w) (s, l)) as [d' w1] eqn:Hstep.
    destruct (parse_line_warns path d w s l) as [w2 Hw2].
    rewrite Hstep in Hw2. simpl in Hw2. subst w1.
    destruct (IH (S s) d' (w ++ w2)) as [w3 Hw3]. rewrite Hw3.
    exists (w2 ++ w3). by rewrite app_assoc.
Qed.

Lemma keys_fold_set d es :
  Dict.keys (foldl set_entry d es) = add_keys (Dict.keys d) es.*1.
Proof.
  unfold add_keys. revert d. induction es as [|[k v] es IH]; intros d; [done|].
  simpl. rewrite IH. f_equal. unfold set_entry. simpl. case_bool_decide.
  - by apply keys_set_old.
  - by apply keys_set_new.
Qed.

Lemma get_fold_set d es k :
  Dict.get (foldl set_entry d es) k
  = match last_value k es with Some v => Some v | None => Dict.get d k end.
Proof.
  unfold last_value. revert d. induction es as [|[k' v] es IH]; intros d; [done|].
  simpl. rewrite IH. unfold set_entry. simpl. rewrite filter_cons. simpl.
  destruct (decide (k' = k)) as [->|Hne].
  - rewrite last_cons. destruct (last _); simpl; [done|]. apply get_set_eq.
  - destruct (last _); simpl; [done|]. by apply get_set_ne.
Qed.

(** The dictionary of a file: its keys in first-seen order, each with
    the value of its last entry. *)
Lemma parse_lines_keys path ls :
  Dict.keys (parse_lines path ls).1 = first_seen (entries_of ls).*1.
Proof.
  rewrite parse_lines_from, parse_from_data, keys_fold_set, add_keys_first_seen.
  simpl. f_equal. apply filter_all. intros x _. apply not_elem_of_nil.
Qed.

Lemma parse_lines_get path ls k :
  Dict.get (parse_lines path ls).1 k = last_value k (entries_of ls).
Proof.
  rewrite parse_lines_from, parse_from_data, get_fold_set.
  by destruct (last_value _ _).
Qed.

Lemma parse_lines_wf path ls : Dict.wf (parse_lines path ls).1.
Proof. unfold Dict.wf. rewrite parse_lines_keys. apply first_seen_NoDup. Qed.
End parse_facts.
Section parse_claims.
Import Spec.
Implicit Types (d : Dict.dict (list N)) (k : list N) (es : list (list N * list N)).

Lemma parse_strings_file_readable f path text :
  f !! path = Some (File (Some text)) ->
  parse_strings_file f path = Ok (parse_lines path (readlines text)).
Proof. intros Hf. unfold parse_strings_file, isfile. by rewrite Hf. Qed.

Lemma entries_of_app l1 l2 : entries_of (l1 ++ l2) = entries_of l1 ++ entries_of l2.
Proof. unfold entries_of. apply omap_app. Qed.

Lemma elem_of_entries_of ls i l e :
  ls !! i = Some l -> entry_of l = Some e -> e ∈ entries_of ls.
Proof.
  intros Hl He. unfold entries_of. apply list_elem_of_omap.
  exists l. split; [|done]. by eapply list_elem_of_lookup_2.
Qed.

Lemma last_value_is_Some k v es : (k, v) ∈ es -> is_Some (last_value k es).
Proof.
  intros Hin. unfold last_value.
  assert (Hf : (k, v) ∈ filter (λ e, e.1 = k) es) by by apply list_elem_of_filter.
  destruct (filter _ es) as [|e l] using rev_ind.
  - by apply elem_of_nil in Hf.
  - rewrite last_snoc. by eexists.
Qed.

Lemma mem_fold_set d es k v : (k, v) ∈ es -> Dict.mem (foldl set_entry d es) k = true.
Proof.
  intros Hin. unfold Dict.mem. rewrite get_fold_set.
  by destruct (last_value_is_Some k v es Hin) as [v' ->].
Qed.

(** A second entry for a key is warned about, whatever follows. *)
Lemma parse_lines_duplicate_warned path ls i j li lj k v1 v2 :
  (i < j)%nat -> ls !! i = Some li -> ls !! j = Some lj ->
  classify li = Entry k v1 -> classify lj = Entry k v2 ->
  WarnDuplicate path (S j) k ∈ (parse_lines path ls).2.
Proof.
  intros Hij Hi Hj Hci Hcj.
  rewrite parse_lines_from.
  rewrite <- (take_drop_middle ls j lj Hj).
  rewrite parse_from_app, parse_from_cons.
  assert (Hlen : length (take j ls) = j).
  { apply length_take_le. apply lookup_lt_Some in Hj. lia. }
  rewrite Hlen.
  destruct (parse_from path 1 (Dict.empty, []) (take j ls)) as [d1 w1] eqn:Hpre.
  assert (Hmem : Dict.mem d1 k = true).
  { pose proof (parse_from_data path 1 Dict.empty [] (take j ls)) as Hd.
    rewrite Hpre in Hd. simpl in Hd. rewrite Hd.
    apply mem_fold_set with v1.
    apply elem_of_entries_of with i li.
    - by rewrite lookup_take_lt.
    - unfold entry_of. by rewrite Hci. }
  assert (Hstep : parse_line path (d1, w1) (1 + j, lj)%nat
        = (Dict.set d1 k v2, w1 ++ [WarnDuplicate path (S j) k])).
  { unfold parse_line. by rewrite Hcj, Hmem. }
  rewrite Hstep.
  destruct (parse_from_warns path (S (1 + j)) (Dict.set d1 k v2)
    (w1 ++ [WarnDuplicate path (S j) k]) (drop (S j) ls)) as [w' ->].
  rewrite !elem_of_app, list_elem_of_singleton. tauto.
Qed.

(** The value of a key is that of its last entry line. *)
Lemma parse_lines_last_entry path ls j lj k v2 :
  ls !! j = Some lj -> classify lj = Entry k v2 ->
  (∀ j' l v, (j < j')%nat -> ls !! j' = Some l -> classify l ≠ Entry k v) ->
  Dict.get (parse_lines path ls).1 k = Some v2.
Proof.
  intros Hj Hcj Hlast. rewrite parse_lines_get.
  rewrite <- (take_drop_middle ls j lj Hj).
  rewrite entries_of_app. unfold last_value. rewrite filter_app.
  change (lj :: drop (S j) ls) with ([lj] ++ drop (S j) ls).
  rewrite entries_of_app, filter_app.
  assert (Hmid : filter (λ e, e.1 = k) (entries_of [lj]) = [(k, v2)]).
  { unfold entries_of, entry_of. simpl. rewrite Hcj. simpl.
    by rewrite filter_cons_True. }
  assert (Hrest : filter (λ e, e.1 = k) (entries_of (drop (S j) ls)) = []).
  { apply elem_of_nil_inv. intros [k' v'].
    rewrite list_elem_of_filter. simpl. intros [-> Hin].
    unfold entries_of in Hin. apply list_elem_of_omap in Hin as (l & Hl & He).
    apply list_elem_of_lookup_1 in Hl as [n Hn]. rewrite lookup_drop in Hn.
    apply (Hlast (S j + n)%nat l v'); [lia | done |].
    unfold entry_of in He. by destruct (classify l); simplify_eq. }
  rewrite Hmid, Hrest, app_nil_r, last_snoc. done.
Qed.
End parse_claims.

(** C6.  In a locale file that holds two valid entry lines [i < j] for
    one key, parsing succeeds, the line [j] is answered by the warning
    about a duplicate key at its line number, and when [j] is the last
    entry line for the key the parsed catalog maps the key to the value
    of line [j]. *)
Theorem parse_strings_file_last_write_wins
    (f : gmap (list N) node) (path text li lj k v1 v2 : list N) (i j : nat) :
  f !! path = Some (File (Some text)) ->
  (i < j)%nat ->
  readlines text !! i = Some li -> classify li = Entry k v1 ->
  readlines text !! j = Some lj -> classify lj = Entry k v2 ->
  ∃ data warns,
    parse_strings_file f path = Ok (data, warns)
    ∧ WarnDuplicate path (S j) k ∈ warns
    ∧ ((∀ j' l v, (j < j')%nat -> readlines text !! j' = Some l ->
        classify l ≠ Entry k v) ->
       Dict.get data k = Some v2).
Proof.
  intros Hf Hij Hi Hci Hj Hcj.
  exists (parse_lines path (readlines text)).1, (parse_lines path (readlines text)).2.
  split_and!.
  - rewrite (parse_strings_file_readable f path text Hf).
    by destruct (parse_lines _ _).
  - by eapply parse_lines_duplicate_warned.
  - intros Hlast. by eapply parse_lines_last_entry.
Qed.

Lemma parse_strings_file_last_write_wins_witness :
  ∃ data warns,
    parse_strings_file Samples.dup_fs Samples.en_path = Ok (data, warns)
    ∧ WarnDuplicate Samples.en_path 3 (lit "x") ∈ warns
    ∧ Dict.get data (lit "x") = Some (lit "b").
Proof.
  destruct (parse_strings_file_last_write_wins Samples.dup_fs Samples.en_path
    Samples.dup_text
    (Samples.entry_line (lit "x") (lit "a"))
    (Samples.entry_line (lit "x") (lit "b"))
    (lit "x") (lit "a") (lit "b") 0 2)
    as (data & warns & Hp & Hw & Hv);
    [reflexivity | lia | reflexivity | reflexivity | reflexivity | reflexivity |].
  exists data, warns. split_and!; [done | done |].
  apply Hv. intros j' l v Hlt Hl.
  apply lookup_lt_Some in Hl. vm_compute in Hl. lia.
Defined.

(** ** Building the catalog *)

Section build_facts.
Import Spec.
Implicit Types (ld : Dict.dict (Dict.dict (list N))) (src key lang : list N).

Lemma add_keys_app acc l1 l2 :
  add_keys acc (l1 ++ l2) = add_keys (add_keys acc l1) l2.
Proof. unfold add_keys. apply foldl_app. Qed.

Lemma add_keys_NoDup acc ks : NoDup acc -> NoDup (add_keys acc ks).
Proof.
  intros Hacc. rewrite add_keys_first_seen. apply NoDup_app. split_and!.
  - done.
  - intros x Hx. rewrite first_seen_subseteq, list_elem_of_filter. tauto.
  - apply first_seen_NoDup.
Qed.

Lemma collect_fold ld src acc :
  foldl (λ acc item, if str_eqb item.1 src then acc
         else add_keys acc (Dict.keys item.2)) acc ld
  = add_keys acc (other_keys ld src).
Proof.
  unfold other_keys, Dict.items. revert acc. induction ld as [|[loc kv] ld IH]; intros acc; [done|].
  rewrite filter_cons. simpl. rewrite IH. case_str_eqb.
  - by rewrite decide_False by tauto.
  - rewrite decide_True by done. simpl. by rewrite add_keys_app.
Qed.

(** The key order: the keys of the source language, then the other
    keys as they are first seen. *)
Lemma collect_keys_order ld src :
  collect_keys ld src
  = source_keys ld src
      ++ first_seen (filter (λ k, k ∉ source_keys ld src) (other_keys ld src)).
Proof.
  unfold collect_keys, Dict.items. rewrite collect_fold.
  apply add_keys_first_seen.
Qed.

Lemma collect_keys_NoDup ld src :
  NoDup (source_keys ld src) -> NoDup (collect_keys ld src).
Proof.
  intros H. unfold collect_keys, Dict.items. rewrite collect_fold.
  by apply add_keys_NoDup.
Qed.

Section fold_set.
Context {V : Type} (g : list N -> V).

Lemma keys_fold_set_fun (d : Dict.dict V) ks :
  Dict.keys (foldl (λ so key, Dict.set so key (g key)) d ks)
  = add_keys (Dict.keys d) ks.
Proof.
  unfold add_keys. revert d. induction ks as [|k ks IH]; intros d; [done|].
  simpl. rewrite IH. f_equal. case_bool_decide.
  - by apply keys_set_old.
  - by apply keys_set_new.
Qed.

Lemma get_fold_set_fun (d : Dict.dict V) ks k :
  Dict.get (foldl (λ so key, Dict.set so key (g key)) d ks) k
  = if bool_decide (k ∈ ks) then Some (g k) else Dict.get d k.
Proof.
  revert d. induction ks as [|k' ks IH]; intros d; [done|].
  simpl. rewrite IH. case_bool_decide as Hin.
  - rewrite bool_decide_eq_true_2; [done|]. by apply list_elem_of_further.
  - destruct (decide (k = k')) as [->|Hne].
    + rewrite bool_decide_eq_true_2 by apply list_elem_of_here. apply get_set_eq.
    + rewrite bool_decide_eq_false_2.
      * by apply get_set_ne.
      * rewrite elem_of_cons. tauto.
Qed.
End fold_set.

Lemma build_keys ld src ver :
  NoDup (source_keys ld src) ->
  Dict.keys (strings (build_xcstring ld src ver)) = collect_keys ld src.
Proof.
  intros Hsrc. unfold build_xcstring. simpl.
  rewrite keys_fold_set_fun, add_keys_first_seen. simpl.
  rewrite filter_all by (intros x _; apply not_elem_of_nil).
  apply first_seen_id. by apply collect_keys_NoDup.
Qed.

Lemma build_get ld src ver key :
  Dict.get (strings (build_xcstring ld src ver)) key
  = if bool_decide (key ∈ collect_keys ld src)
    then Some (CatalogEntry (lit "manual") (locs_of ld key)) else None.
Proof. unfold build_xcstring. simpl. by rewrite get_fold_set_fun. Qed.

Lemma locs_fold ld key acc :
  NoDup (Dict.keys acc ++ Dict.keys ld) ->
  foldl (λ locs item,
           match Dict.get item.2 key with
           | Some v => Dict.set locs item.1 (StringUnit (lit "translated") v)
           | None => locs
           end) acc ld
  = acc ++ present_in ld key.
Proof.
  unfold present_in, Dict.items. revert acc. induction ld as [|[lang kv] ld IH]; intros acc Hnd.
  - simpl. by rewrite app_nil_r.
  - simpl in *. apply NoDup_app in Hnd as (Hacc & Hdisj & Hld).
    apply NoDup_cons in Hld as [Hlang Hld].
    assert (Hfresh : lang ∉ Dict.keys acc).
    { intros Hin. apply (Hdisj _ Hin). apply list_elem_of_here. }
    destruct (Dict.get kv key) as [v|] eqn:Hg; simpl.
    + rewrite IH.
      * rewrite set_new by done. by rewrite <- app_assoc.
      * rewrite keys_set_new by done. rewrite <- app_assoc. simpl.
        apply NoDup_app. split_and!; [done | | by apply NoDup_cons].
        intros x Hx [->|Hin]%elem_of_cons; [done|].
        apply (Hdisj _ Hx). by apply list_elem_of_further.
    + apply IH. apply NoDup_app. split_and!; [done | | done].
      intros x Hx Hin. apply (Hdisj _ Hx). by apply list_elem_of_further.
Qed.

Lemma locs_of_present ld key : Dict.wf ld -> locs_of ld key = present_in ld key.
Proof. intros Hwf. unfold locs_of, Dict.items. by rewrite locs_fold. Qed.
End build_facts.

Section build_claims.
Import Spec.
Implicit Types (ld : Dict.dict (Dict.dict (list N))) (src key lang : list N).

Lemma get_present_in ld key lang :
  Dict.wf ld ->
  Dict.get (present_in ld key) lang
  = kv ← Dict.get ld lang; v ← Dict.get kv key;
    Some (StringUnit (lit "translated") v).
Proof.
  unfold Dict.wf, present_in, Dict.items.
  induction ld as [|[l0 kv0] ld IH]; intros Hnd; [done|].
  simpl in Hnd. apply NoDup_cons in Hnd as [Hl0 Hnd]. csimpl.
  destruct (str_eqb_spec l0 lang) as [->|Hne]; csimpl.
  - destruct (Dict.get kv0 key) as [v|] eqn:Hg; csimpl.
    + by rewrite str_eqb_refl.
    + rewrite IH by done.
      assert (Hnone : Dict.get ld lang = None) by by apply get_None_keys.
      by rewrite Hnone.
  - destruct (Dict.get kv0 key) as [v|] eqn:Hg; csimpl.
    + rewrite str_eqb_ne by done. by apply IH.
    + by apply IH.
Qed.

Lemma source_keys_NoDup ld src :
  (∀ loc kv, (loc, kv) ∈ Dict.items ld -> Dict.wf kv) ->
  NoDup (source_keys ld src).
Proof.
  intros Hwf. unfold source_keys.
  destruct (Dict.get ld src) as [kv|] eqn:Hg; [|apply NoDup_nil_2].
  apply (Hwf src kv). by apply items_get.
Qed.
End build_claims.

(** C1.  For parsed catalogs [ld] (dictionaries: no locale and no key
    twice) and a source language, the keys of the strings mapping of
    [build_xcstring] are the keys of the source-language catalog in its
    order, followed by the keys found only in other locales in the
    order in which they are first seen; and the entry of each key has
    localizations exactly for the locales whose catalog holds the key,
    in the order of the locales, each with that locale's value. *)
Theorem build_xcstring_key_order_and_localizations
    (ld : Dict.dict (Dict.dict (list N))) (src ver : list N) :
  Dict.wf ld ->
  (∀ loc kv, (loc, kv) ∈ Dict.items ld -> Dict.wf kv) ->
  Dict.keys (strings (build_xcstring ld src ver))
  = Spec.source_keys ld src
      ++ Spec.first_seen
           (filter (λ k, k ∉ Spec.source_keys ld src) (Spec.other_keys ld src))
  ∧ ∀ key, key ∈ Dict.keys (strings (build_xcstring ld src ver)) ->
      ∃ e, Dict.get (strings (build_xcstring ld src ver)) key = Some e
           ∧ localizations e = Spec.present_in ld key
           ∧ ∀ lang,
               Dict.get (localizations e) lang
               = kv ← Dict.get ld lang; v ← Dict.get kv key;
 Some (StringUnit (lit "translated") v).
Proof.
  intros Hwf Hkv.
  pose proof (source_keys_NoDup ld src Hkv) as Hsrc.
  rewrite build_keys by done. split; [apply collect_keys_order|].
  intros key Hkey. rewrite build_get, bool_decide_eq_true_2 by done.
  eexists. split; [done|]. simpl. rewrite locs_of_present by done.
  split; [done|]. intros lang. by apply get_present_in.
Qed.

Lemma build_xcstring_key_order_and_localizations_witness :
  Dict.keys (strings (build_xcstring Samples.two_locales (lit "en") (lit "1.0")))
  = [lit "Hello"; lit "Bye"; lit "Neu"]
  ∧ ∃ e, Dict.get (strings (build_xcstring Samples.two_locales (lit "en") (lit "1.0")))
           (lit "Bye") = Some e
         ∧ localizations e = [(lit "en", StringUnit (lit "translated") (lit "Bye"))].
Proof.
  destruct (build_xcstring_key_order_and_localizations
              Samples.two_locales (lit "en") (lit "1.0")) as [Hkeys Hloc].
  - apply (bool_decide_unpack _). by vm_compute.
  - intros loc kv Hin. vm_compute in Hin.
    repeat (apply elem_of_cons in Hin as [Hin|Hin];
            [injection Hin as -> ->; apply (bool_decide_unpack _); by vm_compute|]).
    by apply elem_of_nil in Hin.
  - split; [exact Hkeys|].
    destruct (Hloc (lit "Bye")) as (e & He & Hl & _).
    + rewrite Hkeys. apply (bool_decide_unpack _). by vm_compute.
    + exists e. split; [exact He|]. rewrite Hl. reflexivity.
Defined.

(** C9.  The catalog parsed from a file lists each key at the place of
    its first entry line and gives it the value of its last entry line;
    when that catalog is the source-language catalog, the key order of
    the consolidated catalog starts with these keys in that order. *)
Theorem duplicate_key_keeps_first_position
    (f : gmap (list N) node) (path : list N) (data : Dict.dict (list N))
    (warns : list event) (ld : Dict.dict (Dict.dict (list N)))
    (src ver : list N) :
  parse_strings_file f path = Ok (data, warns) ->
  Dict.get ld src = Some data ->
  Dict.keys data = Spec.first_seen (Spec.entries_of (Spec.file_lines f path)).*1
  ∧ (∀ k, Dict.get data k
          = Spec.last_value k (Spec.entries_of (Spec.file_lines f path)))
  ∧ ∃ extras,
      Dict.keys (strings (build_xcstring ld src ver))
      = Spec.first_seen (Spec.entries_of (Spec.file_lines f path)).*1 ++ extras.
Proof.
  intros Hparse Hsrc.
  assert (Hdata : data = (parse_lines path (Spec.file_lines f path)).1).
  { unfold parse_strings_file, isfile, Spec.file_lines in *.
    destruct (f !! path) as [[[text|]|entries]|]; simpl in *.
    - injection Hparse as Hp. by rewrite Hp.
    - done.
    - by injection Hparse as <- _.
    - by injection Hparse as <- _. }
  assert (Hkeys : Dict.keys data
  = Spec.first_seen (Spec.entries_of (Spec.file_lines f path)).*1).
  { rewrite Hdata. apply parse_lines_keys. }
  split_and!.
  - exact Hkeys.
  - intros k. rewrite Hdata. apply parse_lines_get.
  - eexists. rewrite build_keys, collect_keys_order.
    + unfold Spec.source_keys. rewrite Hsrc, Hkeys. reflexivity.
    + unfold Spec.source_keys. rewrite Hsrc, Hdata. apply parse_lines_wf.
Qed.

Lemma duplicate_key_keeps_first_position_witness :
  ∃ data,
    Dict.keys data = [lit "x"; lit "y"]
    ∧ Dict.get data (lit "x") = Some (lit "b")
    ∧ ∃ extras,
        Dict.keys (strings (build_xcstring [(lit "en", data)] (lit "en") (lit "1.0")))
        = [lit "x"; lit "y"] ++ extras.
Proof.
  pose (data := (parse_lines Samples.en_path (readlines Samples.dup_text)).1).
  pose (warns := (parse_lines Samples.en_path (readlines Samples.dup_text)).2).
  destruct (duplicate_key_keeps_first_position Samples.dup_fs Samples.en_path
              data warns [(lit "en", data)] (lit "en") (lit "1.0"))
    as (Hk & Hv & Hb); [reflexivity | reflexivity |].
  exists data. split_and!; [exact Hk | by rewrite Hv | exact Hb].
Defined.

Section load_facts.
Implicit Types (ld : Dict.dict (Dict.dict (list N))) (w : world).

Lemma load_locales_cons loc path locales ld w :
  load_locales ((loc, path) :: locales) ld w
  = match parse_strings_file (fs w) path with
    | Ok parsed =>
        load_locales locales (Dict.set ld loc parsed.1)
          (emit (World (fs w) (log w ++ parsed.2))
(OutParsed (Dict.len parsed.1) path))
    | Raise e => (Raise e, w)
    end.
Proof.
  simpl. unfold mbind, M_bind, bind, lift, prints, print. simpl.
  by destruct (parse_strings_file (fs w) path).
Qed.

Lemma load_locales_fs locales ld w ld' w' :
  load_locales locales ld w = (Ok ld', w') -> fs w' = fs w.
Proof.
  revert ld w. induction locales as [|[loc path] locales IH]; intros ld w.
  - intros [= _ <-]. done.
  - rewrite load_locales_cons.
    destruct (parse_strings_file (fs w) path) as [parsed|e]; [|done].
    intros H. by apply IH in H.
Qed.

Lemma load_locales_wf locales ld w ld' w' :
  load_locales locales ld w = (Ok ld', w') -> Dict.wf ld -> Dict.wf ld'.
Proof.
  revert ld w. induction locales as [|[loc path] locales IH]; intros ld w.
  - by intros [= <- _].
  - rewrite load_locales_cons.
    destruct (parse_strings_file (fs w) path) as [parsed|e]; [|done].
    intros H Hwf. eapply IH; [exact H|]. by apply wf_set.
Qed.

Lemma load_locales_other locales ld w ld' w' loc :
  load_locales locales ld w = (Ok ld', w') ->
  loc ∉ locales.*1 -> Dict.get ld' loc = Dict.get ld loc.
Proof.
  revert ld w. induction locales as [|[l0 path] locales IH]; intros ld w.
  - by intros [= <- _].
  - rewrite load_locales_cons.
    destruct (parse_strings_file (fs w) path) as [parsed|e]; [|done].
    intros H. rewrite fmap_cons, not_elem_of_cons. simpl. intros [Hne Hnin].
    rewrite (IH _ _ H Hnin). by apply get_set_ne.
Qed.

(** Each locale gets the catalog parsed from its path. *)
Lemma load_locales_get locales ld w ld' w' loc path :
  load_locales locales ld w = (Ok ld', w') ->
  NoDup locales.*1 -> (loc, path) ∈ locales ->
  ∃ data warns, parse_strings_file (fs w) path = Ok (data, warns)
∧ Dict.get ld' loc = Some data.
Proof.
  revert ld w. induction locales as [|[l0 p0] locales IH]; intros ld w.
  - intros _ _ Hin. by apply elem_of_nil in Hin.
  - rewrite load_locales_cons.
    destruct (parse_strings_file (fs w) p0) as [[data warns]|e] eqn:Hp; [|done].
    intros H. rewrite fmap_cons, NoDup_cons. simpl. intros [Hl0 Hnd].
    intros [Heq|Hin]%elem_of_cons.
    + simplify_eq. exists data, warns. split; [done|].
      rewrite (load_locales_other _ _ _ _ _ _ H Hl0). apply get_set_eq.
    + destruct (IH _ _ H Hnd Hin) as (d & ws & Hd & Hg).
      exists d, ws. by split.
Qed.
End load_facts.

(** C10.  At a path that is not an existing file [parse_strings_file]
    returns the empty mapping, writes no warning and raises nothing; a
    locale of the discovered list whose file is not there when the
    files are loaded gets the empty catalog, and no entry of the
    consolidated catalog has a localization for it. *)
Theorem parse_strings_file_missing
    (f : gmap (list N) node) (path : list N) :
  isfile f path = false ->
  parse_strings_file f path = Ok (Dict.empty, [])
  ∧ ∀ locales loc w ld w' src ver key e,
      fs w = f -> NoDup locales.*1 -> (loc, path) ∈ locales ->
      load_locales locales Dict.empty w = (Ok ld, w') ->
      Dict.get ld loc = Some Dict.empty
      ∧ (Dict.get (strings (build_xcstring ld src ver)) key = Some e ->
         Dict.get (localizations e) loc = None).
Proof.
  intros Hmissing.
  assert (Hparse : parse_strings_file f path = Ok (Dict.empty, [])).
  { unfold parse_strings_file. by rewrite Hmissing. }
  split; [exact Hparse|].
  intros locales loc w ld w' src ver key e Hfs Hnd Hin Hload.
  destruct (load_locales_get _ _ _ _ _ _ _ Hload Hnd Hin) as (d & ws & Hd & Hg).
  rewrite Hfs, Hparse in Hd. injection Hd as <- <-.
  split; [exact Hg|].
  rewrite build_get. case_bool_decide; [|done]. intros [= <-]. simpl.
  rewrite locs_of_present.
  - rewrite get_present_in.
    + by rewrite Hg.
    + eapply load_locales_wf; [exact Hload | apply NoDup_nil_2].
  - eapply load_locales_wf; [exact Hload | apply NoDup_nil_2].
Qed.

Lemma parse_strings_file_missing_witness :
  parse_strings_file Samples.gone_fs Samples.de_path = Ok (Dict.empty, [])
  ∧ ∃ ld w',
      load_locales Samples.gone_locales Dict.empty (World Samples.gone_fs [])
      = (Ok ld, w')
      ∧ Dict.get ld (lit "de") = Some Dict.empty
      ∧ Dict.keys (strings (build_xcstring ld (lit "en") (lit "1.0")))
        = [lit "x"; lit "y"].
Proof.
  destruct (parse_strings_file_missing Samples.gone_fs Samples.de_path)
    as [Hp Hl]; [reflexivity|].
  split; [exact Hp|].
  destruct (load_locales Samples.gone_locales Dict.empty (World Samples.gone_fs []))
    as [r w'] eqn:Hload.
  vm_compute in Hload. injection Hload as <- <-.
  eexists _, _. split; [reflexivity|]. split; [|reflexivity].
  refine (proj1 (Hl Samples.gone_locales (lit "de") (World Samples.gone_fs [])
 _ _ (lit "en") (lit "1.0") (lit "x")
 (CatalogEntry [] []) eq_refl _ _ _)).
  - apply (bool_decide_unpack _). by vm_compute.
  - apply (bool_decide_unpack _). by vm_compute.
  - vm_compute. reflexivity.
Defined.

(** ** The order of strings and [sorted] *)

Section order_facts.
Import Spec.
Implicit Types (x y z : list N) (xs : list (list N)).

Lemma str_compare_opp x y : str_compare y x = CompOpp (str_compare x y).
Proof.
  revert y. induction x as [|a x IH]; intros [|b y]; simpl; try done.
  rewrite (N.compare_antisym a b). destruct (a ?= b); simpl; [apply IH | done | done].
Qed.

Lemma str_le_total x y : str_leb x y = false -> str_le y x.
Proof.
  unfold str_le, str_leb. rewrite (str_compare_opp x y).
  by destruct (str_compare x y).
Qed.

Lemma str_compare_Eq x y : str_compare x y = Eq -> x = y.
Proof.
  revert y. induction x as [|a x IH]; intros [|b y]; simpl; try done.
  destruct (N.compare_spec a b) as [->| |]; try done.
  intros H. by rewrite (IH y H).
Qed.

Lemma str_compare_Lt_trans x y z :
  str_compare x y = Lt -> str_compare y z = Lt -> str_compare x z = Lt.
Proof.
  revert y z. induction x as [|a x IH]; intros [|b y] [|c z]; simpl; try done.
  destruct (N.compare_spec a b) as [->|Hab|Hab]; try done.
  - destruct (N.compare_spec b c) as [->|Hbc|Hbc]; try done. apply IH.
  - destruct (N.compare_spec b c) as [->|Hbc|Hbc]; try done; intros _ _.
    + by apply N.compare_lt_iff in Hab as ->.
    + assert (Hac : a < c) by lia. by apply N.compare_lt_iff in Hac as ->.
Qed.

#[local] Instance str_le_trans : Transitive str_le.
Proof.
  intros x y z. unfold str_le, str_leb.
  destruct (str_compare x y) eqn:Hxy; try done;
    destruct (str_compare y z) eqn:Hyz; try done; intros _ _.
  - apply str_compare_Eq in Hxy as ->. by rewrite Hyz.
  - apply str_compare_Eq in Hxy as ->. by rewrite Hyz.
  - apply str_compare_Eq in Hyz as <-. by rewrite Hxy.
  - by rewrite (str_compare_Lt_trans x y z).
Qed.

Lemma elem_of_insert_sorted x y xs : y ∈ insert_sorted x xs <-> y = x ∨ y ∈ xs.
Proof.
  induction xs as [|z xs IH]; simpl.
  - rewrite list_elem_of_singleton, elem_of_nil. tauto.
  - destruct (str_leb x z).
    + by rewrite elem_of_cons.
    + rewrite !elem_of_cons, IH. tauto.
Qed.

Lemma elem_of_sorted y xs : y ∈ sorted xs <-> y ∈ xs.
Proof.
  induction xs as [|x xs IH]; simpl; [done|].
  rewrite elem_of_insert_sorted, elem_of_cons, IH. tauto.
Qed.

Lemma insert_sorted_sorted x xs :
  StronglySorted str_le xs -> StronglySorted str_le (insert_sorted x xs).
Proof.
  induction xs as [|z xs IH]; simpl; intros Hs.
  - apply StronglySorted_cons. split; [apply Forall_nil_2 | done].
  - apply StronglySorted_cons in Hs as [Hz Hs].
    destruct (str_leb x z) eqn:Hxz.
    + apply StronglySorted_cons. split.
      * apply Forall_cons. split; [done|].
        eapply Forall_impl; [exact Hz|]. intros w Hw. by trans z.
      * by apply StronglySorted_cons.
    + apply StronglySorted_cons. split; [|by apply IH].
      apply Forall_forall. intros w [->|Hw]%elem_of_insert_sorted.
      * by apply str_le_total.
      * by eapply Forall_forall in Hz.
Qed.

Lemma sorted_sorted xs : StronglySorted str_le (sorted xs).
Proof.
  induction xs as [|x xs IH]; simpl; [constructor|]. by apply insert_sorted_sorted.
Qed.

Lemma StronglySorted_filter (P : list N -> Prop) `{!∀ x, Decision (P x)} xs :
  StronglySorted str_le xs -> StronglySorted str_le (filter P xs).
Proof.
  induction xs as [|x xs IH]; [done|].
  rewrite StronglySorted_cons. intros [Hx Hs]. rewrite filter_cons.
  destruct (decide (P x)); [|by apply IH].
  apply StronglySorted_cons. split; [|by apply IH].
  apply Forall_forall. intros y [_ Hy]%list_elem_of_filter.
  by eapply Forall_forall in Hx.
Qed.
End order_facts.

(** ** Discovery *)

Section discover_facts.
Import Spec.
Implicit Types (x p entry loc : list N).

Lemma startswith_app x p : startswith x p = true <-> ∃ r, x = p ++ r.
Proof.
  revert x. induction p as [|a p IH]; intros [|b x]; simpl.
  - split; [intros _; by exists [] | done].
  - split; [intros _; by exists (b :: x) | done].
  - split; [done | by intros [r Hr]].
  - rewrite andb_true_iff, N.eqb_eq, IH. split.
    + intros [-> [r ->]]. by exists r.
    + intros [r [= -> ->]]. split; [done | by exists r].
Qed.

Lemma endswith_app x p : endswith x p = true <-> ∃ r, x = r ++ p.
Proof.
  unfold endswith. rewrite startswith_app. split.
  - intros [r Hr]. exists (rev r).
    apply (f_equal (@rev N)) in Hr. by rewrite rev_involutive, rev_app_distr, rev_involutive in Hr.
  - intros [r ->]. exists (rev r). by rewrite rev_app_distr.
Qed.

(** Taking the last six characters off an entry that ends in
    [.lproj] leaves what stands before the suffix. *)
Lemma strip_lproj loc : take (length (loc ++ LPROJ) - 6) (loc ++ LPROJ) = loc.
Proof.
  rewrite length_app. change (length LPROJ) with 6%nat.
  replace (length loc + 6 - 6)%nat with (length loc) by lia.
  by rewrite take_app_length.
Qed.

Lemma discover_entries_filter f project_dir basename (entries : list (list N)) :
  discover_entries f project_dir basename entries
  = (λ entry, (take_suffix entry, strings_path project_dir basename entry))
      <$> filter (discovered f project_dir basename) entries.
Proof.
  induction entries as [|entry entries IH]; [done|].
  rewrite filter_cons. simpl.
  change (join2 (join2 project_dir entry) (basename ++ lit ".strings"))
    with (strings_path project_dir basename entry).
  destruct (decide (discovered f project_dir basename entry)) as [[He Hf]|Hn].
  - rewrite He, Hf. simpl. by rewrite IH.
  - rewrite IH. destruct (endswith entry LPROJ) eqn:He; simpl; [|done].
    destruct (isfile f (strings_path project_dir basename entry)) eqn:Hf; [|done].
    exfalso. apply Hn. by split.
Qed.

Lemma take_suffix_lproj entry :
  endswith entry LPROJ = true -> take_suffix entry ++ LPROJ = entry.
Proof.
  intros [loc ->]%endswith_app. unfold take_suffix. by rewrite strip_lproj.
Qed.

Lemma discovered_names f project_dir basename (entries : list (list N)) :
  (λ entry, take_suffix entry ++ LPROJ)
    <$> filter (discovered f project_dir basename) entries
  = filter (discovered f project_dir basename) entries.
Proof.
  induction entries as [|entry entries IH]; [done|].
  rewrite filter_cons. destruct (decide _) as [[He _]|]; [|done].
  rewrite fmap_cons, IH. by rewrite take_suffix_lproj.
Qed.
End discover_facts.

(** C5 (as the code has it).  [discover_locales] returns exactly the
    pairs (locale, path) of the entries of the project directory whose
    name is the locale followed by [.lproj] and under which
    [<basename>.strings] is a file, and the list is in ascending order
    of the entry names, that is of the locale code followed by
    [.lproj]. *)
Theorem discover_locales_sorted_by_entry_name
    (f : gmap (list N) node) (project_dir basename : list N)
    (entries : list (list N)) (locales : list (list N * list N)) :
  listdir f project_dir = Ok entries ->
  discover_locales f project_dir basename = Ok locales ->
  (∀ loc path,
     (loc, path) ∈ locales
     ↔ loc ++ LPROJ ∈ entries
       ∧ path = Spec.strings_path project_dir basename (loc ++ LPROJ)
       ∧ isfile f path = true)
  ∧ StronglySorted Spec.str_le ((λ lp, lp.1 ++ LPROJ) <$> locales).
Proof.
  intros Hls Hd. unfold discover_locales in Hd. rewrite Hls in Hd.
  injection Hd as <-. rewrite discover_entries_filter. split.
  - intros loc path. rewrite list_elem_of_fmap. split.
    + intros (entry & [= -> ->] & [[He Hf] Hin]%list_elem_of_filter).
      apply (proj1 (elem_of_sorted _ _)) in Hin.
      rewrite take_suffix_lproj by done. done.
    + intros (Hin & -> & Hf). exists (loc ++ LPROJ). split.
      * unfold Spec.take_suffix. by rewrite strip_lproj.
      * apply list_elem_of_filter. split; [|by apply elem_of_sorted].
        split; [|done]. apply endswith_app. by exists loc.
  - rewrite <- list_fmap_compose. unfold compose. simpl.
    rewrite (discovered_names f project_dir basename (sorted entries)).
    apply StronglySorted_filter, sorted_sorted.
Qed.

Lemma discover_locales_sorted_by_entry_name_witness :
  discover_locales Samples.zh_fs (lit "ChessDuo") (lit "Localizable")
  = Ok [(lit "zh-Hans", Samples.zh_Hans_path); (lit "zh", Samples.zh_path)]
  ∧ StronglySorted Spec.str_le [lit "zh-Hans.lproj"; lit "zh.lproj"].
Proof.
  split; [reflexivity|].
  exact (proj2 (discover_locales_sorted_by_entry_name Samples.zh_fs
                  (lit "ChessDuo") (lit "Localizable")
                  [lit "zh.lproj"; lit "zh-Hans.lproj"]
                  [(lit "zh-Hans", Samples.zh_Hans_path); (lit "zh", Samples.zh_path)]
                  eq_refl eq_refl)).
Defined.

(** C5 (as the claim has it) fails: with the locales [zh] and
    [zh-Hans] the list has [zh-Hans] first, although [zh] is the
    smaller locale code. *)
Lemma discover_locales_not_sorted_by_locale :
  discover_locales Samples.zh_fs (lit "ChessDuo") (lit "Localizable")
  = Ok [(lit "zh-Hans", Samples.zh_Hans_path); (lit "zh", Samples.zh_path)]
  ∧ str_compare (lit "zh") (lit "zh-Hans") = Lt
  ∧ ¬ StronglySorted Spec.str_le
        [(lit "zh-Hans", Samples.zh_Hans_path); (lit "zh", Samples.zh_path)].*1.
Proof.
  split_and!; [reflexivity | reflexivity |].
  intros [Hle _]%StronglySorted_cons.
  apply Forall_cons in Hle as [Hle _]. vm_compute in Hle. discriminate.
Qed.

(** ** The exporter *)

Section export_facts.
Import Spec.
Implicit Types (t : gmap (list N) (gmap (list N) (list N))) (locale : list N).


Lemma export_block_unrecognized t lang_name content :
  lookup_locale LOCALES lang_name = None ->
  export_block t (lang_name, content) = t.
Proof. intros Hl. unfold export_block. by rewrite Hl. Qed.


Lemma locale_codes_app l1 l2 :
  locale_codes (l1 ++ l2) = locale_codes l1 ++ locale_codes l2.
Proof. unfold locale_codes. apply omap_app. Qed.




Lemma locale_codes_cons n c blocks :
  locale_codes ((n, c) :: blocks)
  = match lookup_locale LOCALES n with
    | Some locale => locale :: locale_codes blocks
    | None => locale_codes blocks
    end.
Proof. done. Qed.


End export_facts.

(** ** Putting a file into a directory *)

Section fs_facts.
Import Spec.
Implicit Types (f : gmap (list N) node) (path dir text : list N).

Lemma dir_error_None fuel f dir :
  dir_error fuel f dir = None
  ↔ only_seps dir = true ∨ ∃ entries, f !! dir = Some (Dir entries).
Proof.
  destruct fuel; cbn [dir_error]; destruct (only_seps dir) eqn:Hs.
  all: try (split; [by left|done]).
  all: destruct (f !! dir) as [[t|es]|]; try (split; [done|by intros [?|[? ?]]]).
  all: try (split; [intros _; right; by eexists|done]).
  destruct (dir_error fuel f (dirname dir)); (split; [done|by intros [?|[? ?]]]).
Qed.

(** The exceptions of a directory that cannot be used. *)
Lemma dir_error_kind fuel f dir e :
  dir_error fuel f dir = Some e ->
  e = NotADirectoryError ∨ e = FileNotFoundError.
Proof.
  revert dir. induction fuel as [|fuel IH]; intros dir; cbn [dir_error];
    destruct (only_seps dir); try done;
    destruct (f !! dir) as [[t|es]|]; try done;
    try (intros [= <-]; by left); try (intros [= <-]; by right).
  destruct (dir_error fuel f (dirname dir)) as [e'|] eqn:He.
  - intros [= <-]. by apply (IH (dirname dir)).
  - intros [= <-]. by right.
Qed.

Lemma create_error_None f path : create_error f path = None ↔ creatable f path.
Proof.
  unfold create_error, creatable, in_directory. case_bool_decide as Hp.
  { split; [done|]. by intros [? _]. }
  destruct (dir_error (length path) f (dirname path)) as [e|] eqn:He.
  - split; [done|]. intros (_ & _ & Hd%(dir_error_None (length path))).
    by rewrite He in Hd.
  - apply dir_error_None in He.
    destruct (endswith path [SEP]); [split; [done|by intros (_ & ? & _)]|done].
Qed.

(** The output can be written exactly when [writable] holds. *)
Lemma write_file_Ok f path text f' :
  write_file f path text = Ok f'
  ↔ writable f path ∧ f' = <[path := File (Some text)]> f.
Proof.
  unfold write_file, writable.
  destruct (create_error f path) as [e|] eqn:He.
  - split.
    + by destruct (f !! path) as [[?|?]|].
    + intros [[_ Hc%create_error_None] _]. by rewrite He in Hc.
  - apply create_error_None in He.
    destruct (f !! path) as [[t|es]|] eqn:Hf.
    + split; [intros [= <-]; by split_and!|]. by intros [_ ->].
    + split; [done|]. intros [[Hd _] _]. by destruct (Hd es).
    + split; [intros [= <-]; by split_and!|]. by intros [_ ->].
Qed.


(** Writing a file changes only its path. *)
Lemma write_file_frame f path text f' p :
  write_file f path text = Ok f' -> p ≠ path -> f' !! p = f !! p.
Proof. intros [_ ->]%write_file_Ok Hp. by rewrite lookup_insert_ne. Qed.





End fs_facts.

(** ** The run of [main] *)

Section main_facts.
Import Spec.
Implicit Types (w : world) (args : arguments) (locales : list (list N * list N)).

Lemma main_no_locales args w :
  discover_locales (fs w) (project_dir args) (basename args) = Ok [] ->
  main args w = (Ok 1%nat, emit w (ErrNoFiles (basename args) (project_dir args))).
Proof.
  intros Hd. unfold main, mbind, M_bind, bind, lift. by rewrite Hd.
Qed.

Lemma main_discovery_raises args w e :
  discover_locales (fs w) (project_dir args) (basename args) = Raise e ->
  main args w = (Raise e, w).
Proof.
  intros Hd. unfold main, mbind, M_bind, bind, lift. by rewrite Hd.
Qed.

(** [main] when locales are discovered: load, write, archive. *)
Lemma main_some_locales args w locales :
  discover_locales (fs w) (project_dir args) (basename args) = Ok locales ->
  locales ≠ [] ->
  main args w
  = match load_locales locales Dict.empty (emit w (OutDiscovered locales.*1)) with
    | (Raise e, w1) => (Raise e, w1)
    | (Ok ld, w1) =>
        let w2 := if Dict.mem ld (source_language args) then w1
                  else emit w1 (OutSourceMissing (source_language args)) in
        let xc := build_xcstring ld (source_language args) (version_arg args) in
        let w3 := emit w2 (OutWillWrite (output_path args) (Dict.len (strings xc))
                    (list_sum (map (fun kv => Dict.len (localizations kv.2))
         (Dict.items (strings xc))))) in
        match write_step args (json_dumps xc) w3 with
        | (Raise e, w4) => (Raise e, w4)
        | (Ok _, w4) =>
            match backup_step args locales w4 with
            | (Raise e, w5) => (Raise e, w5)
            | (Ok _, w5) => (Ok 0%nat, w5)
            end
        end
    end.
Proof.
  intros Hd Hne. unfold main, mbind, M_bind, bind, lift. rewrite Hd.
  destruct locales as [|l0 locales]; [done|].
  unfold print at 1. cbn [fst snd].
  destruct (load_locales _ _ _) as [[ld|e] w1]; [|done].
  unfold write_step, backup_step, output_path, mbind, M_bind, bind, lift, ret, mret, M_ret.
  destruct (Dict.mem ld (source_language args)); cbn.
  all: destruct (dry_run args); cbn.
  all: repeat match goal with
       | |- context [write_file ?f ?p ?t] => destruct (write_file f p t); cbn
       end.
  all: destruct (no_backup args); cbn; try done.
  all: repeat match goal with
       | |- context [rename_originals ?a ?b ?c ?d ?e] =>
           destruct (rename_originals a b c d e) as [[[]|?] ?]; cbn
       end; try done.
Qed.

Lemma load_locales_readable locales ld w :
  readable (fs w) locales ->
  ∃ ld' w', load_locales locales ld w = (Ok ld', w') ∧ fs w' = fs w.
Proof.
  revert ld w. induction locales as [|[loc path] locales IH]; intros ld w Hr.
  - by exists ld, w.
  - rewrite load_locales_cons.
    destruct (Hr loc path) as [parsed ->]; [apply list_elem_of_here|].
    destruct (IH (Dict.set ld loc parsed.1)
                (emit (World (fs w) (log w ++ parsed.2))
                      (OutParsed (Dict.len parsed.1) path))) as (ld' & w' & Hl & Hf).
    + intros l p Hin. apply (Hr l p). by apply list_elem_of_further.
    + by exists ld', w'.
Qed.



Lemma rename_originals_cons loc path locales (ext : list N) dry skip w :
  rename_originals ((loc, path) :: locales) ext dry skip w
  = if exists_ (fs w) (path ++ ext) then
      if skip then rename_originals locales ext dry skip w
      else (Raise (FileExistsError (path ++ ext)), w)
    else if dry then
      rename_originals locales ext dry skip (emit w (OutMove path (path ++ ext)))
    else
      match rename (fs w) path (path ++ ext) with
      | Ok f' =>
          rename_originals locales ext dry skip
            (World f' (log w ++ [OutMove path (path ++ ext)]))
      | Raise e => (Raise e, emit w (OutMove path (path ++ ext)))
      end.
Proof.
  simpl. unfold mbind, M_bind, bind, lift, print, set_fs, raise. simpl.
  destruct (exists_ (fs w) (path ++ ext)); [by destruct skip|].
  destruct dry; [done|]. simpl.
  by destruct (rename (fs w) path (path ++ ext)).
Qed.

Lemma rename_originals_dry locales ext skip w :
  fs (rename_originals locales ext true skip w).2 = fs w.
Proof.
  revert w. induction locales as [|[loc path] locales IH]; intros w; [done|].
  rewrite rename_originals_cons.
  destruct (exists_ (fs w) (path ++ ext)).
  - destruct skip; [apply IH|done].
  - by rewrite IH.
Qed.

End main_facts.

(** ** Archiving *)

Section archive_run.
Import Spec.
Implicit Types (w : world) (args : arguments) (locales : list (list N * list N))
  (ext : list N).



End archive_run.

Section main_status.
Import Spec.
Implicit Types (w : world) (args : arguments) (locales : list (list N * list N))
  (ext : list N).






End main_status.






(** ** Where the code parts from its comments *)

(** C2.  With the marker line [Promotional Text:] in the block, the
    text handed on as the description starts with the line after the
    marker, the promotional text itself, which the comments of the
    source mean to leave out; it ends up in [description.txt]. *)
Theorem desc_text_keeps_promo_line :
  search true PROMO_RE Samples.promo_block ≠ None
  ∧ desc_text Samples.promo_block
    = lit "Play together" ++ [NL] ++ lit "A board for two."
  ∧ (export Samples.promo_text ∅ !! lit "en-US") ≫= (.!! lit "description.txt")
    = Some (lit "Play together" ++ [NL] ++ lit "A board for two." ++ [NL])
  ∧ (export Samples.promo_text ∅ !! lit "en-US") ≫= (.!! lit "promotional_text.txt")
    = Some (lit "Play together" ++ [NL]).
Proof. split_and!; by vm_compute. Qed.

(** C4.  [unescape] turns the three characters backslash, backslash, n
    into one newline, not into a backslash and an n: the replacement of
    backslash-n runs before that of the doubled backslash. *)
Theorem unescape_backslash_backslash_n :
  unescape [BACKSLASH; BACKSLASH; 110] = [NL]
  ∧ unescape [BACKSLASH; BACKSLASH; 110] ≠ [BACKSLASH; 110]
  ∧ classify Samples.backslash_line
    = Entry (lit "path") (lit "C:" ++ [NL] ++ lit "ew").
Proof. split_and!; by vm_compute. Qed.

(** C8.  [clean_desc] takes a blank line between two paragraphs out:
    the white space matched at the start of a line runs over the line
    ends that follow it. *)
Theorem clean_desc_drops_blank_lines :
  clean_desc Samples.two_paragraphs
  = lit "First." ++ [NL] ++ lit "Second." ++ [NL]
  ∧ clean_desc Samples.two_paragraphs
    ≠ lit "First." ++ [NL; NL] ++ lit "Second." ++ [NL].
Proof. split; by vm_compute. Qed.

(** * Further properties *)

(** ** Unescaping *)

Section unescape_facts.
Implicit Types (a b x o new : list N) (c d : N).

Lemma startswith_nil x : startswith x [] = true.
Proof. by destruct x. Qed.

Lemma startswith_cons c d x p :
  startswith (d :: x) (c :: p) = (c =? d) && startswith x p.
Proof. done. Qed.

Lemma replace_from_cons_0 old new c x :
  replace_from old new 0 (c :: x)
  = if startswith (c :: x) old
    then new ++ replace_from old new (pred (length old)) x
    else c :: replace_from old new 0 x.
Proof. done. Qed.

Lemma replace_from_plain_app a y o new :
  BACKSLASH ∉ a ->
  replace_from (BACKSLASH :: o) new 0 (a ++ y)
  = a ++ replace_from (BACKSLASH :: o) new 0 y.
Proof.
  induction a as [|c a IH]; [done|].
  rewrite not_elem_of_cons. intros [Hc Ha].
  rewrite <- app_comm_cons, replace_from_cons_0, startswith_cons.
  destruct (N.eqb_spec BACKSLASH c) as [Heq|_]; [by destruct Hc|].
  cbn [andb]. by rewrite IH.
Qed.

Lemma replace_plain x o new :
  BACKSLASH ∉ x -> replace x (BACKSLASH :: o) new = x.
Proof.
  intros Hx. unfold replace.
  rewrite <- (app_nil_r x) at 1. rewrite replace_from_plain_app by done.
  by rewrite app_nil_r.
Qed.

(** The escape looked for is replaced. *)
Lemma replace_escape_hit a b c new :
  BACKSLASH ∉ a -> BACKSLASH ∉ b ->
  replace (a ++ [BACKSLASH; c] ++ b) [BACKSLASH; c] new = a ++ new ++ b.
Proof.
  intros Ha Hb. unfold replace. rewrite replace_from_plain_app by done.
  cbn [app]. rewrite replace_from_cons_0, !startswith_cons, startswith_nil.
  rewrite !N.eqb_refl. cbn [andb length pred replace_from].
  fold (replace b [BACKSLASH; c] new). by rewrite replace_plain.
Qed.

(** Another escape is left alone. *)
Lemma replace_escape_miss a b c d new :
  BACKSLASH ∉ a -> BACKSLASH ∉ b -> c ≠ d -> d ≠ BACKSLASH ->
  replace (a ++ [BACKSLASH; d] ++ b) [BACKSLASH; c] new
  = a ++ [BACKSLASH; d] ++ b.
Proof.
  intros Ha Hb Hcd Hd. unfold replace. rewrite replace_from_plain_app by done.
  cbn [app]. rewrite replace_from_cons_0, !startswith_cons.
  rewrite N.eqb_refl, (proj2 (N.eqb_neq c d) Hcd). cbn [andb].
  rewrite replace_from_cons_0, startswith_cons.
  rewrite (proj2 (N.eqb_neq BACKSLASH d)) by congruence. cbn [andb].
  fold (replace b [BACKSLASH; c] new). by rewrite replace_plain.
Qed.

(** A doubled backslash is left alone by the other replacements when
    the text after it does not complete their escape. *)
Lemma replace_double_miss a b c new :
  BACKSLASH ∉ a -> BACKSLASH ∉ b -> c ≠ BACKSLASH -> head b ≠ Some c ->
  replace (a ++ [BACKSLASH; BACKSLASH] ++ b) [BACKSLASH; c] new
  = a ++ [BACKSLASH; BACKSLASH] ++ b.
Proof.
  intros Ha Hb Hc Hh. unfold replace. rewrite replace_from_plain_app by done.
  cbn [app]. rewrite replace_from_cons_0, !startswith_cons.
  rewrite N.eqb_refl, (proj2 (N.eqb_neq c BACKSLASH) Hc). cbn [andb].
  f_equal. f_equal.
  destruct b as [|e b']; [done|].
  rewrite replace_from_cons_0, !startswith_cons, N.eqb_refl.
  assert (Hce : c ≠ e) by (intros Heq; apply Hh; by rewrite Heq).
  rewrite (proj2 (N.eqb_neq c e) Hce). cbn [andb].
  f_equal. apply not_elem_of_cons in Hb as [He Hb'].
  rewrite replace_from_cons_0, startswith_cons.
  rewrite (proj2 (N.eqb_neq BACKSLASH e)) by done. cbn [andb].
  fold (replace b' [BACKSLASH; c] new). by rewrite replace_plain.
Qed.

Lemma plain_around a b c : BACKSLASH ∉ a -> BACKSLASH ∉ b -> c ≠ BACKSLASH ->
  BACKSLASH ∉ a ++ [c] ++ b.
Proof.
  intros Ha Hb Hc. rewrite !not_elem_of_app, list_elem_of_singleton.
  split_and!; [done | congruence | done].
Qed.
End unescape_facts.

Lemma unescape_no_backslash (x : list N) :
  BACKSLASH ∉ x -> unescape x = x.
Proof.
  intros Hx. unfold unescape. by rewrite !(replace_plain x) by done.
Qed.

(** X1.  A key or value without a backslash is left as it is by
    [unescape]. *)
Theorem unescape_plain (x : list N) :
  BACKSLASH ∉ x -> unescape x = x.
Proof.
  intros Hx. unfold unescape. by rewrite !(replace_plain x) by done.
Qed.

Lemma unescape_plain_witness : unescape (lit "Hello, world") = lit "Hello, world".
Proof.
  apply (unescape_plain (lit "Hello, world")).
  apply (bool_decide_unpack _). by vm_compute.
Defined.

(** X2.  One escape sequence in a text that has no other backslash is
    unescaped as the table says: backslash-quote gives a quote,
    backslash-n and backslash-newline give a newline, and a doubled
    backslash gives one backslash when the text after it does not
    start with a quote, an n or a newline. *)
Theorem unescape_single_escape (a b : list N) :
  BACKSLASH ∉ a -> BACKSLASH ∉ b ->
  unescape (a ++ [BACKSLASH; QUOTE] ++ b) = a ++ [QUOTE] ++ b
  ∧ unescape (a ++ [BACKSLASH; 110] ++ b) = a ++ [NL] ++ b
  ∧ unescape (a ++ [BACKSLASH; NL] ++ b) = a ++ [NL] ++ b
  ∧ (head b ≠ Some QUOTE -> head b ≠ Some 110 -> head b ≠ Some NL ->
     unescape (a ++ [BACKSLASH; BACKSLASH] ++ b) = a ++ [BACKSLASH] ++ b).
Proof.
  intros Ha Hb.
  assert (Hq : BACKSLASH ∉ a ++ [QUOTE] ++ b) by by apply plain_around.
  assert (Hn : BACKSLASH ∉ a ++ [NL] ++ b) by by apply plain_around.
  unfold unescape. split_and!.
  - rewrite replace_escape_hit by done. by rewrite !(replace_plain (a ++ [QUOTE] ++ b)) by done.
  - rewrite replace_escape_miss by done.
    rewrite replace_escape_hit by done. by rewrite !(replace_plain (a ++ [NL] ++ b)) by done.
  - rewrite !replace_escape_miss by done.
    rewrite replace_escape_hit by done. by rewrite !(replace_plain (a ++ [NL] ++ b)) by done.
  - intros H1 H2 H3.
    rewrite !replace_double_miss by done.
    by rewrite replace_escape_hit.
Qed.

Lemma unescape_single_escape_witness :
  unescape (lit "say " ++ [BACKSLASH; QUOTE] ++ lit "hi") = lit "say " ++ [QUOTE] ++ lit "hi"
  ∧ unescape (lit "C:" ++ [BACKSLASH; BACKSLASH] ++ lit "tmp") = lit "C:" ++ [BACKSLASH] ++ lit "tmp".
Proof.
  destruct (unescape_single_escape (lit "say ") (lit "hi")) as (H1 & _);
    [apply (bool_decide_unpack _); by vm_compute
    |apply (bool_decide_unpack _); by vm_compute|].
  destruct (unescape_single_escape (lit "C:") (lit "tmp")) as (_ & _ & _ & H4);
    [apply (bool_decide_unpack _); by vm_compute
    |apply (bool_decide_unpack _); by vm_compute|].
  split; [exact H1|]. apply H4; by vm_compute.
Defined.

(** ** More on parsing *)

Section parse_more.
Import Spec Notions.
Implicit Types (d : Dict.dict (list N)) (ls : list (list N)) (w : list event).

Lemma entries_of_non_entry l : entry_of l = None -> entries_of [l] = [].
Proof. intros H. unfold entries_of. simpl. by rewrite H. Qed.

(** The warnings about unparsed lines, from line number [s] on. *)
Lemma parse_from_unparsed path s d w ls n raw :
  WarnUnparsed path n raw ∈ (parse_from path s (d, w) ls).2
  <-> WarnUnparsed path n raw ∈ w
      ∨ ∃ j, n = (s + j)%nat ∧ ls !! j = Some raw ∧ classify raw = Unparsed.
Proof.
  revert s d w. induction ls as [|l ls IH]; intros s d w.
  - simpl. split; [by left|]. intros [?|(j & _ & Hj & _)]; [done|].
    by rewrite lookup_nil in Hj.
  - rewrite parse_from_cons.
    destruct (parse_line path (d, w) (s, l)) as [d' w'] eqn:Hstep.
    rewrite IH.
    assert (Hw' : WarnUnparsed path n raw ∈ w'
                  <-> WarnUnparsed path n raw ∈ w
                      ∨ (n = s ∧ l = raw ∧ classify raw = Unparsed)).
    { unfold parse_line in Hstep. destruct (classify l) as [| |key val] eqn:Hc.
      - injection Hstep as <- <-. split; [by left|].
        intros [?|(_ & <- & Hu)]; [done|congruence].
      - injection Hstep as <- <-.
        rewrite elem_of_app, list_elem_of_singleton. split.
        + intros [?|[= -> ->]]; [by left|by right].
        + intros [?|(-> & <- & _)]; [by left|by right].
      - injection Hstep as <- <-.
        destruct (Dict.mem d key).
        + rewrite elem_of_app, list_elem_of_singleton. split.
          * intros [?|?]; [by left|done].
          * intros [?|(_ & <- & Hu)]; [by left|congruence].
        + split; [by left|]. intros [?|(_ & <- & Hu)]; [done|congruence]. }
    rewrite Hw'. split.
    + intros [[?|(-> & -> & Hu)]|(j & -> & Hj & Hu)].
      * by left.
      * right. exists 0%nat. split_and!; [lia|done|done].
      * right. exists (S j). split_and!; [lia|done|done].
    + intros [?|(j & -> & Hj & Hu)]; [by left; left|].
      destruct j as [|j].
      * simpl in Hj. injection Hj as ->. left. right. split_and!; [lia|done|done].
      * right. exists j. split_and!; [lia|done|done].
Qed.

(** The entries set and the warnings about duplicates add up to the
    entry lines read. *)
Lemma parse_from_count path s d w ls :
  (Dict.len (parse_from path s (d, w) ls).1
   + duplicate_warnings (parse_from path s (d, w) ls).2
   = Dict.len d + duplicate_warnings w + length (entries_of ls))%nat.
Proof.
  revert s d w. induction ls as [|l ls IH]; intros s d w.
  - simpl. lia.
  - rewrite parse_from_cons.
    destruct (parse_line path (d, w) (s, l)) as [d' w'] eqn:Hstep.
    rewrite IH. change (l :: ls) with ([l] ++ ls).
    rewrite entries_of_app, length_app.
    unfold parse_line, entries_of, entry_of in *. cbn [omap list_omap].
    unfold duplicate_warnings in *.
    destruct (classify l) as [| |key val] eqn:Hc.
    + injection Hstep as <- <-. simpl. lia.
    + injection Hstep as <- <-. rewrite List.filter_app, length_app. simpl. lia.
    + injection Hstep as <- <-. unfold Dict.len.
      destruct (Dict.mem d key) eqn:Hmem.
      * apply mem_keys in Hmem.
        assert (Hl : length (Dict.set d key val) = length d).
        { rewrite <- (length_fmap fst (Dict.set d key val)).
          change (fst <$> Dict.set d key val) with (Dict.keys (Dict.set d key val)).
          rewrite keys_set_old by done. unfold Dict.keys. by rewrite length_map. }
        rewrite Hl, List.filter_app, length_app. simpl. lia.
      * assert (Hnin : key ∉ Dict.keys d).
        { intros Hin. apply mem_keys in Hin. congruence. }
        rewrite set_new by done. rewrite length_app. simpl. lia.
Qed.
End parse_more.

(** X3.  A line that is no entry line (blank, comment or unparsed)
    leaves the parsed dictionary as it would be without the line. *)
Theorem parse_lines_skips_non_entries
    (path : list N) (l1 l2 : list (list N)) (l : list N) :
  Spec.entry_of l = None ->
  (parse_lines path (l1 ++ l :: l2)).1 = (parse_lines path (l1 ++ l2)).1.
Proof.
  intros Hl. rewrite !parse_lines_from, !parse_from_data.
  change (l :: l2) with ([l] ++ l2).
  by rewrite !entries_of_app, entries_of_non_entry.
Qed.

Lemma parse_lines_skips_non_entries_witness :
  (parse_lines Samples.en_path
     ([Samples.entry_line (lit "x") (lit "a")] ++ lit "junk" :: [])).1
  = [(lit "x", lit "a")].
Proof.
  rewrite (parse_lines_skips_non_entries Samples.en_path
             [Samples.entry_line (lit "x") (lit "a")] [] (lit "junk"));
    by vm_compute.
Defined.

(** X4.  The warnings about unparsed lines are exactly those of the
    lines that are neither ignored nor entries, each with its line
    number counted from 1 and its raw text. *)
Theorem parse_lines_unparsed_warnings
    (path : list N) (ls : list (list N)) (n : nat) (raw : list N) :
  WarnUnparsed path n raw ∈ (parse_lines path ls).2
  <-> ∃ j, n = S j ∧ ls !! j = Some raw ∧ classify raw = Unparsed.
Proof.
  rewrite parse_lines_from, parse_from_unparsed. split.
  - intros [Hin|(j & -> & H)]; [by apply elem_of_nil in Hin | by exists j].
  - intros (j & -> & H). right. by exists j.
Qed.

(** X5.  The number of entries of the parsed dictionary and the number
    of warnings about duplicate keys add up to the number of entry
    lines of the file. *)
Theorem parse_lines_entry_count (path : list N) (ls : list (list N)) :
  (Dict.len (parse_lines path ls).1
   + Notions.duplicate_warnings (parse_lines path ls).2
   = length (Spec.entries_of ls))%nat.
Proof. rewrite parse_lines_from, parse_from_count. simpl. lia. Qed.

(** ** More on discovery and loading *)

Section discover_more.
Import Spec.
Implicit Types (xs entries : list (list N)).

Lemma insert_sorted_NoDup x xs :
  x ∉ xs -> NoDup xs -> NoDup (insert_sorted x xs).
Proof.
  induction xs as [|y xs IH]; simpl; intros Hx Hnd.
  - apply NoDup_singleton.
  - destruct (str_leb x y); [by apply NoDup_cons|].
    apply not_elem_of_cons in Hx as [Hxy Hx].
    apply NoDup_cons in Hnd as [Hy Hnd].
    apply NoDup_cons. split; [|by apply IH].
    rewrite elem_of_insert_sorted. intros [->|?]; done.
Qed.

Lemma sorted_NoDup xs : NoDup xs -> NoDup (sorted xs).
Proof.
  induction xs as [|x xs IH]; simpl; [done|].
  rewrite NoDup_cons. intros [Hx Hnd].
  apply insert_sorted_NoDup; [|by apply IH]. by rewrite elem_of_sorted.
Qed.
End discover_more.

(** X6.  When the directory listing names no entry twice, no locale
    code comes twice in the list [discover_locales] returns. *)
Theorem discover_locales_distinct
    (f : gmap (list N) node) (project_dir basename : list N)
    (entries : list (list N)) (locales : list (list N * list N)) :
  listdir f project_dir = Ok entries -> NoDup entries ->
  discover_locales f project_dir basename = Ok locales ->
  NoDup locales.*1.
Proof.
  intros Hls Hnd Hd. unfold discover_locales in Hd. rewrite Hls in Hd.
  injection Hd as <-. rewrite discover_entries_filter.
  rewrite <- list_fmap_compose.
  apply NoDup_fmap_2_strong; [|by apply NoDup_filter, sorted_NoDup].
  intros x y [[Hx _] _]%list_elem_of_filter [[Hy _] _]%list_elem_of_filter.
  unfold compose. simpl. intros Heq.
  by rewrite <- (take_suffix_lproj x Hx), <- (take_suffix_lproj y Hy), Heq.
Qed.

Lemma discover_locales_distinct_witness :
  NoDup [lit "zh-Hans"; lit "zh"].
Proof.
  apply (discover_locales_distinct Samples.zh_fs (lit "ChessDuo") (lit "Localizable")
           [lit "zh.lproj"; lit "zh-Hans.lproj"]
           [(lit "zh-Hans", Samples.zh_Hans_path); (lit "zh", Samples.zh_path)]);
    [reflexivity | apply (bool_decide_unpack _); by vm_compute | reflexivity].
Defined.

(** X7.  When the project directory does not exist, or is a file, the
    run ends with the exception of [os.listdir] before anything is
    printed or written. *)
Theorem main_project_dir_missing (args : arguments) (w : world) :
  (∀ entries, fs w !! project_dir args ≠ Some (Dir entries)) ->
  ∃ e, main args w = (Raise e, w)
       ∧ (e = FileNotFoundError (project_dir args)
          ∨ e = NotADirectoryError (project_dir args))
       ∧ exit_status (main args w).1 = 1%nat.
Proof.
  intros Hdir.
  assert (Hd : ∃ e, discover_locales (fs w) (project_dir args) (basename args) = Raise e
                    ∧ (e = FileNotFoundError (project_dir args)
                       ∨ e = NotADirectoryError (project_dir args))).
  { unfold discover_locales, listdir.
    destruct (fs w !! project_dir args) as [[text|entries]|] eqn:Hn.
    - eexists. split; [done|by right].
    - by destruct (Hdir entries).
    - eexists. split; [done|by left]. }
  destruct Hd as (e & Hd & He). exists e.
  rewrite (main_discovery_raises args w e Hd). by split_and!.
Qed.

Lemma main_project_dir_missing_witness :
  main Samples.default_args (World ∅ [])
  = (Raise (FileNotFoundError (lit "ChessDuo")), World ∅ []).
Proof.
  destruct (main_project_dir_missing Samples.default_args (World ∅ []))
    as (e & Hm & [->| ->] & _); [intros entries; by vm_compute | exact Hm |].
  exfalso. vm_compute in Hm. discriminate.
Defined.

Section load_more.
Implicit Types (ld : Dict.dict (Dict.dict (list N))) (w : world).

Lemma load_locales_keys locales ld w ld' w' :
  load_locales locales ld w = (Ok ld', w') ->
  NoDup (Dict.keys ld ++ locales.*1) ->
  Dict.keys ld' = Dict.keys ld ++ locales.*1.
Proof.
  revert ld w. induction locales as [|[loc path] locales IH]; intros ld w.
  - intros [= <- _] _. by rewrite app_nil_r.
  - rewrite load_locales_cons.
    destruct (parse_strings_file (fs w) path) as [parsed|e]; [|done].
    intros H Hnd. rewrite fmap_cons in Hnd. cbn [fst] in Hnd.
    assert (Hloc : loc ∉ Dict.keys ld).
    { apply NoDup_app in Hnd as (_ & Hdisj & _).
      intros Hin. apply (Hdisj _ Hin). apply list_elem_of_here. }
    rewrite (IH _ _ H).
    + rewrite keys_set_new by done. by rewrite <- app_assoc.
    + rewrite keys_set_new by done. by rewrite <- app_assoc.
Qed.
End load_more.

(** X8.  Loading the discovered files gives one catalog per locale, in
    the order of the list, each the one parsed from the locale's path,
    and leaves the file system as it was. *)
Theorem load_locales_in_order
    (locales : list (list N * list N)) (w w' : world)
    (ld : Dict.dict (Dict.dict (list N))) :
  NoDup locales.*1 ->
  load_locales locales Dict.empty w = (Ok ld, w') ->
  Dict.keys ld = locales.*1
  ∧ fs w' = fs w
  ∧ ∀ loc path, (loc, path) ∈ locales ->
      ∃ data warns, parse_strings_file (fs w) path = Ok (data, warns)
                    ∧ Dict.get ld loc = Some data.
Proof.
  intros Hnd Hload. split_and!.
  - by rewrite (load_locales_keys _ _ _ _ _ Hload).
  - by eapply load_locales_fs.
  - intros loc path Hin. by eapply load_locales_get.
Qed.

Lemma load_locales_in_order_witness :
  ∃ ld w', load_locales Samples.gone_locales Dict.empty (World Samples.dup_fs [])
           = (Ok ld, w')
           ∧ Dict.keys ld = [lit "de"; lit "en"].
Proof.
  destruct (load_locales Samples.gone_locales Dict.empty (World Samples.dup_fs []))
    as [r w'] eqn:Hload.
  vm_compute in Hload. injection Hload as <- <-.
  eexists _, _. split; [reflexivity|].
  refine (proj1 (load_locales_in_order Samples.gone_locales
                   (World Samples.dup_fs []) _ _ _ _)).
  - apply (bool_decide_unpack _). by vm_compute.
  - by vm_compute.
Defined.

(** ** More on the catalog *)

Section build_more.
Import Spec.
Implicit Types (ld : Dict.dict (Dict.dict (list N))) (src key lang : list N).

Lemma elem_of_add_keys acc ks k : k ∈ add_keys acc ks <-> k ∈ acc ∨ k ∈ ks.
Proof.
  rewrite add_keys_first_seen, elem_of_app, first_seen_subseteq, list_elem_of_filter.
  destruct (decide (k ∈ acc)); tauto.
Qed.

Lemma elem_of_concat (k : list N) (ls : list (list (list N))) :
  k ∈ concat ls <-> ∃ l, k ∈ l ∧ l ∈ ls.
Proof.
  induction ls as [|l ls IH]; simpl.
  - split; [by intros ?%elem_of_nil | by intros (l & _ & ?%elem_of_nil)].
  - rewrite elem_of_app, IH. split.
    + intros [?|(l' & ? & ?)]; [exists l | exists l'];
        (split; [done|]); [apply list_elem_of_here | by apply list_elem_of_further].
    + intros (l' & Hk & [->|Hin]%elem_of_cons); [by left | right; by exists l'].
Qed.

Lemma elem_of_other_keys ld src k :
  k ∈ other_keys ld src
  <-> ∃ loc kv, (loc, kv) ∈ Dict.items ld ∧ loc ≠ src ∧ k ∈ Dict.keys kv.
Proof.
  unfold other_keys. rewrite elem_of_concat. split.
  - intros (l & Hk & ([loc kv] & -> & [Hne Hin]%list_elem_of_filter)%list_elem_of_fmap).
    by exists loc, kv.
  - intros (loc & kv & Hin & Hne & Hk). exists (Dict.keys kv). split; [done|].
    apply list_elem_of_fmap. exists (loc, kv). split; [done|].
    by apply list_elem_of_filter.
Qed.

(** The keys collected are those of the catalogs. *)
Lemma elem_of_collect_keys ld src k :
  Dict.wf ld ->
  k ∈ collect_keys ld src
  <-> ∃ loc kv, (loc, kv) ∈ Dict.items ld ∧ k ∈ Dict.keys kv.
Proof.
  intros Hwf. unfold collect_keys. rewrite collect_fold, elem_of_add_keys.
  rewrite elem_of_other_keys. fold (source_keys ld src). unfold source_keys.
  split.
  - intros [Hs|(loc & kv & Hin & _ & Hk)]; [|by exists loc, kv].
    destruct (Dict.get ld src) as [kv|] eqn:Hg; [|by apply elem_of_nil in Hs].
    exists src, kv. split; [by apply items_get|done].
  - intros (loc & kv & Hin & Hk). destruct (decide (loc = src)) as [->|Hne].
    + left. by rewrite (get_items ld src kv Hwf Hin).
    + right. by exists loc, kv.
Qed.

Lemma wf_fold_set {V} (g : list N -> V) (d : Dict.dict V) ks :
  Dict.wf d -> Dict.wf (foldl (λ so key, Dict.set so key (g key)) d ks).
Proof.
  revert d. induction ks as [|k ks IH]; intros d Hd; [done|].
  simpl. apply IH. by apply wf_set.
Qed.

Lemma wf_locs_of ld key : Dict.wf (locs_of ld key).
Proof.
  unfold locs_of, Dict.items.
  assert (H : ∀ acc : Dict.dict string_unit, Dict.wf acc ->
    Dict.wf (foldl (λ locs item,
               match Dict.get item.2 key with
               | Some v => Dict.set locs item.1 (StringUnit (lit "translated") v)
               | None => locs
               end) acc ld)).
  { induction ld as [|[lang kv] ld IH]; intros acc Hacc; [done|].
    simpl. apply IH. destruct (Dict.get kv key); [by apply wf_set|done]. }
  apply H. apply NoDup_nil_2.
Qed.
End build_more.

(** X9.  Every value of every catalog is in the output: under its key
    there is an entry marked [manual] whose localization for the
    locale is marked [translated] and holds the value. *)
Theorem build_xcstring_keeps_every_value
    (ld : Dict.dict (Dict.dict (list N))) (src ver loc k v : list N)
    (kv : Dict.dict (list N)) :
  Dict.wf ld ->
  (loc, kv) ∈ Dict.items ld -> Dict.get kv k = Some v ->
  ∃ e, Dict.get (strings (build_xcstring ld src ver)) k = Some e
       ∧ extractionState e = lit "manual"
       ∧ Dict.get (localizations e) loc = Some (StringUnit (lit "translated") v).
Proof.
  intros Hwf Hin Hk. rewrite build_get.
  rewrite bool_decide_eq_true_2.
  - eexists. split_and!; [done|done|]. simpl.
    rewrite locs_of_present, get_present_in by done.
    rewrite (get_items ld loc kv Hwf Hin). simpl. by rewrite Hk.
  - apply elem_of_collect_keys; [done|]. exists loc, kv. split; [done|].
    by eapply get_Some_keys.
Qed.

Lemma build_xcstring_keeps_every_value_witness :
  ∃ e, Dict.get (strings (build_xcstring Samples.two_locales (lit "en") (lit "1.0")))
         (lit "Hello") = Some e
       ∧ Dict.get (localizations e) (lit "de")
         = Some (StringUnit (lit "translated") (lit "Hallo")).
Proof.
  destruct (build_xcstring_keeps_every_value Samples.two_locales (lit "en")
              (lit "1.0") (lit "de") (lit "Hello") (lit "Hallo") Samples.de_catalog)
    as (e & He & _ & Hl).
  - apply (bool_decide_unpack _). by vm_compute.
  - apply (bool_decide_unpack _). by vm_compute.
  - reflexivity.
  - by exists e.
Defined.

(** X10.  The strings mapping holds a key exactly when some catalog
    holds it; it holds no key twice, and no entry has a locale twice. *)
Theorem build_xcstring_keys
    (ld : Dict.dict (Dict.dict (list N))) (src ver : list N) :
  Dict.wf ld ->
  (∀ k, is_Some (Dict.get (strings (build_xcstring ld src ver)) k)
        <-> ∃ loc kv, (loc, kv) ∈ Dict.items ld ∧ k ∈ Dict.keys kv)
  ∧ Dict.wf (strings (build_xcstring ld src ver))
  ∧ ∀ k e, Dict.get (strings (build_xcstring ld src ver)) k = Some e ->
           Dict.wf (localizations e).
Proof.
  intros Hwf. split_and!.
  - intros k. rewrite build_get, <- elem_of_collect_keys by done.
    case_bool_decide as Hin.
    + split; [by intros _ | intros _; by eexists].
    + split; [by intros [? ?] | done].
  - unfold build_xcstring. simpl. apply wf_fold_set, NoDup_nil_2.
  - intros k e. rewrite build_get. case_bool_decide; [|done].
    intros [= <-]. simpl. apply wf_locs_of.
Qed.

Lemma build_xcstring_keys_witness :
  ¬ is_Some (Dict.get (strings (build_xcstring Samples.two_locales (lit "en") (lit "1.0")))
               (lit "Absent")).
Proof.
  destruct (build_xcstring_keys Samples.two_locales (lit "en") (lit "1.0"))
    as (Hk & _ & _); [apply (bool_decide_unpack _); by vm_compute|].
  rewrite Hk. intros (loc & kv & Hin & Hkey).
  vm_compute in Hin.
  repeat (apply elem_of_cons in Hin as [Hin|Hin];
          [injection Hin as -> ->; revert Hkey;
           apply (bool_decide_unpack _); by vm_compute|]).
  by apply elem_of_nil in Hin.
Defined.

(** X11.  When no catalog is that of the source language, the keys come
    in the order in which they are first seen over all catalogs. *)
Theorem build_xcstring_without_source
    (ld : Dict.dict (Dict.dict (list N))) (src ver : list N) :
  Dict.get ld src = None ->
  Dict.keys (strings (build_xcstring ld src ver))
  = Spec.first_seen (concat (map (λ item, Dict.keys item.2) (Dict.items ld))).
Proof.
  intros Hsrc. rewrite build_keys, collect_keys_order.
  - unfold Spec.source_keys, Spec.other_keys. rewrite Hsrc. simpl.
    rewrite (filter_all (λ k, k ∉ [])) by (intros x _; apply not_elem_of_nil).
    do 3 f_equal. apply get_None_keys in Hsrc.
    unfold Dict.items. induction ld as [|[loc kv] ld IH]; [done|].
    simpl in Hsrc. apply not_elem_of_cons in Hsrc as [Hne Hsrc].
    rewrite filter_cons. simpl. rewrite decide_True by done. by rewrite IH.
  - unfold Spec.source_keys. rewrite Hsrc. apply NoDup_nil_2.
Qed.

Lemma build_xcstring_without_source_witness :
  Dict.keys (strings (build_xcstring Samples.two_locales (lit "fr") (lit "1.0")))
  = [lit "Neu"; lit "Hello"; lit "Bye"].
Proof.
  rewrite (build_xcstring_without_source Samples.two_locales (lit "fr") (lit "1.0"));
    by vm_compute.
Defined.

(** ** Archiving and the run as a whole *)

Section archive_facts.
Import Spec.
Implicit Types (w : world) (locales : list (list N * list N)) (ext : list N).

Lemma load_locales_fs_any locales ld w :
  fs (load_locales locales ld w).2 = fs w.
Proof.
  revert ld w. induction locales as [|[loc path] locales IH]; intros ld w; [done|].
  rewrite load_locales_cons.
  destruct (parse_strings_file (fs w) path); [by rewrite IH|done].
Qed.

(** What [write_step] does to the file system. *)
Lemma write_step_fs args json_text w p :
  p ≠ output_path args ->
  fs (write_step args json_text w).2 !! p = fs w !! p.
Proof.
  intros Hp. unfold write_step, mbind, M_bind, bind, lift, set_fs, print.
  destruct (dry_run args); [done|].
  destruct (write_file (fs w) (output_path args) json_text) as [f'|e] eqn:Hw;
    [|done].
  simpl. by apply (write_file_frame _ _ _ _ p) in Hw.
Qed.

Lemma write_step_dry args json_text w :
  dry_run args = true -> fs (write_step args json_text w).2 = fs w.
Proof. intros H. unfold write_step. by rewrite H. Qed.

Lemma main_fs_cases args w :
  fs (main args w).2 = fs w
  ∨ ∃ locales w3 json_text,
      discover_locales (fs w) (project_dir args) (basename args) = Ok locales
      ∧ fs w3 = fs w
      ∧ ((main args w).2 = (write_step args json_text w3).2
         ∨ ∃ w4, write_step args json_text w3 = (Ok tt, w4)
                   ∧ (main args w).2 = (backup_step args locales w4).2).
Proof.
  destruct (discover_locales (fs w) (project_dir args) (basename args))
    as [locales|e] eqn:Hd.
  - destruct locales as [|l0 locales].
    + left. by rewrite (main_no_locales args w Hd).
    + rewrite (main_some_locales args w (l0 :: locales) Hd) by done.
      pose proof (load_locales_fs_any (l0 :: locales) Dict.empty
                    (emit w (OutDiscovered (l0 :: locales).*1))) as Hfs.
      destruct (load_locales _ _ _) as [[ld|e] w1]; [|by left].
      cbn zeta. simpl in Hfs.
      match goal with
      | |- context [write_step args ?j ?w3] =>
          right; exists (l0 :: locales), w3, j
      end.
      split_and!; [done| by destruct (Dict.mem ld (source_language args)) |].
      destruct (write_step _ _ _) as [[[]|e] w4] eqn:Hw; [|by left].
      right. exists w4. split; [done|].
      by destruct (backup_step _ _ _) as [[[]|e] w5].
  - left. by rewrite (main_discovery_raises args w e Hd).
Qed.
End archive_facts.

(** X12.  With [--keep-backups] (skip_if_exists) archiving never raises
    [FileExistsError]. *)
Theorem rename_originals_keep_backups
    (locales : list (list N * list N)) (ext : list N) (dry : bool)
    (w : world) (p : list N) :
  (rename_originals locales ext dry true w).1 ≠ Raise (FileExistsError p).
Proof.
  revert w. induction locales as [|[loc path] locales IH]; intros w; [done|].
  rewrite rename_originals_cons.
  destruct (exists_ (fs w) (path ++ ext)); [apply IH|].
  destruct dry; [apply IH|].
  unfold rename. destruct (fs w !! path); [|done].
  destruct (create_error (fs w) (path ++ ext)) as [e|] eqn:He; [|apply IH].
  unfold create_error in He. case_bool_decide; [by injection He as <-|].
  destruct (dir_error _ _ _) as [mk|] eqn:Hd.
  - injection He as <-. apply dir_error_kind in Hd as [->| ->]; done.
  - destruct (endswith _ _); [by injection He as <-|done].
Qed.

(** X13.  With [--dry-run] the run leaves the file system as it was,
    however it ends. *)
Theorem main_dry_run_changes_nothing (args : arguments) (w : world) :
  dry_run args = true -> fs (main args w).2 = fs w.
Proof.
  intros Hdry.
  destruct (main_fs_cases args w)
    as [H|(locales & w3 & j & Hd & Hw3 & [H|(w4 & Hw & H)])].
  - done.
  - by rewrite H, write_step_dry.
  - rewrite H. unfold Spec.backup_step. rewrite Hdry.
    pose proof (write_step_dry args j w3 Hdry) as Hfs. rewrite Hw in Hfs. simpl in Hfs.
    destruct (no_backup args); [by rewrite <- Hw3, <- Hfs|].
    by rewrite rename_originals_dry, Hfs.
Qed.

Lemma main_dry_run_changes_nothing_witness :
  fs (main (Arguments_ (lit "ChessDuo") (lit "Localizable") None (lit "en")
            (lit "1.0") (lit ".bak") true false false)
        (World Samples.dup_fs [])).2
  = Samples.dup_fs.
Proof.
  by apply (main_dry_run_changes_nothing
              (Arguments_ (lit "ChessDuo") (lit "Localizable") None (lit "en")
                 (lit "1.0") (lit ".bak") true false false)
              (World Samples.dup_fs [])).
Defined.

(** X14.  With [--no-backup] the run changes nothing but the output
    file: every other path stays as it was, however the run ends. *)
Theorem main_no_backup_frame (args : arguments) (w : world) (p : list N) :
  no_backup args = true -> p ≠ Spec.output_path args ->
  fs (main args w).2 !! p = fs w !! p.
Proof.
  intros Hnb Hp.
  destruct (main_fs_cases args w)
    as [H|(locales & w3 & j & Hd & Hw3 & [H|(w4 & Hw & H)])].
  - by rewrite H.
  - by rewrite H, write_step_fs, Hw3.
  - rewrite H. unfold Spec.backup_step. rewrite Hnb. simpl.
    pose proof (write_step_fs args j w3 p Hp) as Hfs. rewrite Hw in Hfs.
    simpl in Hfs. by rewrite Hfs, Hw3.
Qed.

Lemma main_no_backup_frame_witness :
  fs (main Samples.no_backup_args (World Samples.dup_fs [])).2 !! Samples.en_path
  = Some (File (Some Samples.dup_text)).
Proof.
  rewrite (main_no_backup_frame Samples.no_backup_args (World Samples.dup_fs [])
             Samples.en_path); [reflexivity | reflexivity | by vm_compute].
Defined.



(** ** The JSON text *)

Section json_facts.
Import Notions.
Implicit Types (x s : list N) (c : N).

Lemma hex_digit_from_space n : from_space (hex_digit n).
Proof. unfold from_space, hex_digit. destruct (N.ltb_spec n 10); lia. Qed.

Lemma json_escape_from_space c : Forall from_space (json_escape c).
Proof.
  unfold json_escape, from_space.
  repeat match goal with
         | |- context [?a =? ?b] => destruct (N.eqb_spec a b); [repeat constructor; by vm_compute|]
         end.
  destruct (N.ltb_spec c 32).
  - repeat constructor; try by vm_compute.
    + apply hex_digit_from_space.
    + apply hex_digit_from_space.
  - repeat constructor. lia.
Qed.

Lemma json_escape_unescaped c : unescaped c -> json_escape c = [c].
Proof.
  unfold unescaped, json_escape. intros (H32 & Hq & Hb).
  rewrite (proj2 (N.eqb_neq c QUOTE) Hq), (proj2 (N.eqb_neq c BACKSLASH) Hb).
  repeat match goal with
         | |- context [?a =? ?b] => destruct (N.eqb_spec a b); [lia|]
         end.
  destruct (N.ltb_spec c 32); [lia|done].
Qed.

Lemma json_string_from_space x : Forall from_space (json_string x).
Proof.
  unfold json_string. apply Forall_cons. split; [by vm_compute|].
  apply Forall_app. split; [|repeat constructor; by vm_compute].
  induction x as [|c x IH]; simpl; [constructor|].
  apply Forall_app. split; [apply json_escape_from_space|done].
Qed.

Lemma from_space_weaken s : Forall from_space s -> Forall from_space_or_newline s.
Proof. intros Hs. eapply Forall_impl; [exact Hs|]. intros c H. by right. Qed.

Lemma join_layout sep (parts : list (list N)) :
  Forall from_space_or_newline sep ->
  Forall (Forall from_space_or_newline) parts ->
  Forall from_space_or_newline (join sep parts).
Proof.
  intros Hsep. induction 1 as [|p ps Hp Hps IH]; [constructor|].
  destruct ps as [|q ps]; [done|].
  change (join sep (p :: q :: ps)) with (p ++ sep ++ join sep (q :: ps)).
  rewrite !Forall_app. by split_and!.
Qed.

Lemma indent_layout level : Forall from_space_or_newline (indent_of level).
Proof.
  unfold indent_of. apply Forall_forall. intros c Hc.
  apply list_elem_of_In, repeat_spec in Hc as ->. right. lia.
Qed.

Lemma dumps_object_layout level (members : list (list N * json)) :
  Forall (λ kv, Forall from_space_or_newline (dumps (S level) kv.2)) members ->
  Forall from_space_or_newline (dumps level (JObj members)).
Proof.
  intros Hm. destruct members as [|m members]; [apply from_space_weaken; repeat constructor; by vm_compute|].
  assert (Heq : dumps level (JObj (m :: members))
    = lit "{" ++ [NL] ++ indent_of (S level)
      ++ join (lit "," ++ [NL] ++ indent_of (S level))
           (map (λ kv, json_string kv.1 ++ lit ": " ++ dumps (S level) kv.2)
                (m :: members))
      ++ [NL] ++ indent_of level ++ lit "}") by done.
  rewrite Heq. rewrite !Forall_app. split_and!.
  - apply from_space_weaken. repeat constructor; by vm_compute.
  - repeat constructor.
  - apply indent_layout.
  - apply join_layout.
    + rewrite !Forall_app. split_and!; [|repeat constructor|apply indent_layout].
      apply from_space_weaken. repeat constructor; by vm_compute.
    + apply Forall_forall. intros p Hp.
      apply list_elem_of_In, in_map_iff in Hp as (kv & <- & Hkv).
      rewrite !Forall_app. split_and!.
      * apply from_space_weaken, json_string_from_space.
      * apply from_space_weaken. repeat constructor; by vm_compute.
      * eapply Forall_forall in Hm; [exact Hm|]. by apply list_elem_of_In.
  - repeat constructor.
  - apply indent_layout.
  - apply from_space_weaken. repeat constructor; by vm_compute.
Qed.

Lemma dumps_string_layout level x : Forall from_space_or_newline (dumps level (JStr x)).
Proof. apply from_space_weaken, json_string_from_space. Qed.
End json_facts.

(** X16.  A string of the JSON text holds no character below U+0020,
    and a text of characters from U+0020 on, without quote and
    backslash (ASCII or not), is written as it is between two quotes. *)
Theorem json_string_escapes (x : list N) :
  Forall Notions.from_space (json_string x)
  ∧ (Forall Notions.unescaped x -> json_string x = QUOTE :: x ++ [QUOTE]).
Proof.
  split; [apply json_string_from_space|].
  intros Hx. unfold json_string. do 2 f_equal.
  induction Hx as [|c x Hc Hx IH]; [done|].
  simpl. by rewrite json_escape_unescaped, IH.
Qed.

(** X17.  The text written to the output file holds no character below
    U+0020 but the newlines of its layout. *)
Theorem json_dumps_layout (xc : xcstrings) :
  Forall Notions.from_space_or_newline (json_dumps xc).
Proof.
  unfold json_dumps, catalog_json.
  apply dumps_object_layout.
  apply Forall_cons_2; [apply dumps_string_layout|].
  apply Forall_cons_2; [apply dumps_string_layout|].
  apply Forall_cons_2; [|apply Forall_nil_2]. cbn [snd].
  apply dumps_object_layout, Forall_forall.
  intros kv (e & -> & He)%list_elem_of_fmap. cbn [snd]. unfold entry_json.
  apply dumps_object_layout.
  apply Forall_cons_2; [apply dumps_string_layout|].
  apply Forall_cons_2; [|apply Forall_nil_2]. cbn [snd].
  apply dumps_object_layout, Forall_forall.
  intros kv' (u & -> & Hu)%list_elem_of_fmap. cbn [snd]. unfold unit_json.
  apply dumps_object_layout.
  apply Forall_cons_2; [|apply Forall_nil_2]. cbn [snd].
  apply dumps_object_layout.
  apply Forall_cons_2; [apply dumps_string_layout|].
  apply Forall_cons_2; [apply dumps_string_layout|apply Forall_nil_2].
Qed.

Lemma json_string_escapes_witness :
  json_string (lit "Schach") = QUOTE :: lit "Schach" ++ [QUOTE].
Proof.
  apply (proj2 (json_string_escapes (lit "Schach"))).
  apply (bool_decide_unpack _). by vm_compute.
Defined.

(** ** More on the exporter *)

Section export_more.
Import Spec Notions.
Implicit Types (t : gmap (list N) (gmap (list N) (list N))) (locale : list N).

Lemma data_get_fields content :
  data_get (data_of content) (lit "Name") = field_value content (lit "Name")
  ∧ data_get (data_of content) (lit "Subtitle") = field_value content (lit "Subtitle")
  ∧ data_get (data_of content) (lit "Keywords") = field_value content (lit "Keywords")
  ∧ data_get (data_of content) (lit "Promotional Text")
    = field_value content (lit "Promotional Text").
Proof.
  unfold data_get, data_of, FIELDS. cbn [map lookup_locale].
  repeat match goal with
         | |- context [str_eqb (lit ?a) (lit ?b)] =>
             first [ change (str_eqb (lit a) (lit b)) with true
                   | change (str_eqb (lit a) (lit b)) with false ]
         end.
  done.
Qed.

(** One pass of the loop for a block of the locale table. *)
Lemma export_block_files t lang_name content locale :
  lookup_locale LOCALES lang_name = Some locale ->
  export_block t (lang_name, content)
  = <[locale := block_files content (default ∅ (t !! locale))]> t.
Proof.
  intros Hl. unfold export_block. rewrite Hl.
  destruct (data_get_fields content) as (-> & -> & -> & ->).
  unfold write_text, mkdir, block_files.
  destruct (t !! locale) as [old|] eqn:Hold.
  - rewrite Hold. cbn [default from_option id]. rewrite !lookup_insert_eq.
    cbn [default from_option id]. by rewrite !insert_insert_eq.
  - rewrite !lookup_insert_eq. cbn [default from_option id].
    by rewrite !insert_insert_eq.
Qed.

Lemma block_files_other content old name :
  name ∉ FILE_NAMES -> block_files content old !! name = old !! name.
Proof.
  unfold FILE_NAMES, block_files. cbn [list_to_set foldr]. intros Hn.
  rewrite !lookup_insert_ne; [done|set_solver..].
Qed.

Lemma export_block_other t block locale :
  locale ∉ locale_codes [block] -> export_block t block !! locale = t !! locale.
Proof.
  destruct block as [lang_name content]. rewrite locale_codes_cons.
  destruct (lookup_locale LOCALES lang_name) as [l|] eqn:Hl.
  - intros Hn. rewrite (export_block_files _ _ _ _ Hl).
    rewrite lookup_insert_ne; [done|]. intros ->. apply Hn, list_elem_of_here.
  - intros _. by rewrite export_block_unrecognized.
Qed.

Lemma export_fold_other t blocks locale :
  locale ∉ locale_codes blocks -> foldl export_block t blocks !! locale = t !! locale.
Proof.
  revert t. induction blocks as [|block blocks IH]; intros t; [done|].
  change (block :: blocks) with ([block] ++ blocks).
  rewrite locale_codes_app, not_elem_of_app. intros [H1 H2]. cbn [foldl app].
  rewrite IH by done. by apply export_block_other.
Qed.

(** A file that is not one of the five stays in its directory. *)
Lemma export_fold_keeps t blocks locale old name content :
  t !! locale = Some old -> old !! name = Some content -> name ∉ FILE_NAMES ->
  ∃ files, foldl export_block t blocks !! locale = Some files
           ∧ files !! name = Some content.
Proof.
  revert t old. induction blocks as [|[lang_name c] blocks IH]; intros t old Ht Hold Hn.
  - by exists old.
  - cbn [foldl].
    destruct (lookup_locale LOCALES lang_name) as [l|] eqn:Hl.
    + rewrite (export_block_files _ _ _ _ Hl).
      destruct (decide (l = locale)) as [->|Hne].
      * eapply IH; [apply lookup_insert_eq| |done].
        rewrite block_files_other by done. by rewrite Ht.
      * eapply IH; [|done|done]. by rewrite lookup_insert_ne.
    + rewrite export_block_unrecognized by done. by eapply IH.
Qed.
End export_more.

(** X18.  Whatever the output directory holds beforehand, the exporter
    adds the directories of the locale codes of the blocks and takes
    nothing away: the other directories stay as they were, and in every
    directory the files other than the five stay as they were. *)
Theorem export_keeps_what_is_there
    (text : list N) (t : gmap (list N) (gmap (list N) (list N))) :
  dom (export text t) = dom t ∪ list_to_set (Spec.locale_codes (pairs text))
  ∧ (∀ locale, locale ∉ Spec.locale_codes (pairs text) ->
       export text t !! locale = t !! locale)
  ∧ (∀ locale old name content,
       t !! locale = Some old -> old !! name = Some content ->
       name ∉ Spec.FILE_NAMES ->
       ∃ files, export text t !! locale = Some files
                ∧ files !! name = Some content).
Proof.
  unfold export. split_and!.
  - generalize (pairs text). intros blocks. revert t.
    induction blocks as [|[lang_name c] blocks IH]; intros t.
    + simpl. set_solver.
    + cbn [foldl]. rewrite IH, locale_codes_cons.
      destruct (lookup_locale LOCALES lang_name) as [l|] eqn:Hl.
      * rewrite (export_block_files _ _ _ _ Hl), dom_insert_L. set_solver.
      * by rewrite export_block_unrecognized.
  - intros locale. apply export_fold_other.
  - intros locale old name content. apply export_fold_keeps.
Qed.

(** X19.  The files of a locale directory are those of the last block
    for its language: each field file holds the field of that block,
    stripped, and a newline, and [description.txt] holds its cleaned
    description. *)
Theorem export_last_block_wins
    (text : list N) (t : gmap (list N) (gmap (list N) (list N)))
    (pre post : list (list N * list N)) (lang_name content locale : list N) :
  pairs text = pre ++ (lang_name, content) :: post ->
  lookup_locale LOCALES lang_name = Some locale ->
  locale ∉ Spec.locale_codes post ->
  ∃ files,
    export text t !! locale = Some files
    ∧ files !! lit "name.txt" = Some (field_value content (lit "Name") ++ [NL])
    ∧ files !! lit "subtitle.txt"
      = Some (field_value content (lit "Subtitle") ++ [NL])
    ∧ files !! lit "keywords.txt"
      = Some (field_value content (lit "Keywords") ++ [NL])
    ∧ files !! lit "promotional_text.txt"
      = Some (field_value content (lit "Promotional Text") ++ [NL])
    ∧ files !! lit "description.txt" = Some (clean_desc (desc_text content)).
Proof.
  intros Hp Hl Hpost. unfold export. rewrite Hp, foldl_app. cbn [foldl].
  rewrite export_fold_other by done.
  rewrite (export_block_files _ _ _ _ Hl), lookup_insert_eq.
  eexists. split; [done|]. unfold Notions.block_files.
  split_and!.
  - rewrite !lookup_insert_ne by by vm_compute. apply lookup_insert_eq.
  - rewrite !lookup_insert_ne by by vm_compute. apply lookup_insert_eq.
  - rewrite !lookup_insert_ne by by vm_compute. apply lookup_insert_eq.
  - rewrite !lookup_insert_ne by by vm_compute. apply lookup_insert_eq.
  - apply lookup_insert_eq.
Qed.

Lemma export_last_block_wins_witness :
  (export Samples.german_twice ∅ !! lit "de-DE") ≫= (.!! lit "name.txt")
  = Some (lit "Chess" ++ [NL]).
Proof.
  destruct (export_last_block_wins Samples.german_twice ∅
              [(lit "German", Samples.german_block)] []
              (lit "German") Samples.english_block (lit "de-DE"))
    as (files & -> & Hname & _).
  - by vm_compute.
  - reflexivity.
  - apply not_elem_of_nil.
  - simpl. rewrite Hname. by vm_compute.
Defined.

(** ** Stripping *)

Section strip_facts.
Import Notions.
Implicit Types (x : list N) (c : N).

Lemma lstrip_head x c : head (lstrip x) = Some c -> isspace c = false.
Proof.
  induction x as [|d x IH]; [done|]. simpl.
  destruct (isspace d) eqn:Hd; [done|]. simpl. by intros [= <-].
Qed.

Lemma lstrip_suffix x : ∃ s, x = s ++ lstrip x.
Proof.
  induction x as [|d x [s IH]]; [by exists []|]. simpl.
  destruct (isspace d).
  - exists (d :: s). simpl. by f_equal.
  - by exists [].
Qed.

Lemma rstrip_last x c : last (rstrip x) = Some c -> isspace c = false.
Proof.
  unfold rstrip. rewrite <- (rev_involutive (lstrip (rev x))) at 1.
  rewrite rev_involutive.
  destruct (lstrip (rev x)) as [|d l] eqn:Hl; [done|].
  change (rev (d :: l)) with (rev l ++ [d]). rewrite last_snoc.
  intros [= <-]. apply (lstrip_head (rev x)). by rewrite Hl.
Qed.

Lemma rstrip_prefix x : ∃ s, x = rstrip x ++ s.
Proof.
  unfold rstrip. destruct (lstrip_suffix (rev x)) as [s Hs]. exists (rev s).
  rewrite <- rev_app_distr, <- Hs. by rewrite rev_involutive.
Qed.

Lemma strip_trimmed x : trimmed (strip x).
Proof.
  unfold trimmed, strip. split; [|apply rstrip_last].
  intros c Hc. destruct (rstrip_prefix (lstrip x)) as [s Hs].
  apply (lstrip_head x). rewrite Hs.
  destruct (rstrip (lstrip x)); [done|]. exact Hc.
Qed.
End strip_facts.

(** X20.  The text of [description.txt] is a text that neither starts
    nor ends with white space, followed by one newline: it never ends
    in two newlines. *)
Theorem clean_desc_shape (desc : list N) :
  ∃ body, clean_desc desc = body ++ [NL] ∧ Notions.trimmed body.
Proof.
  eexists. split; [reflexivity|]. apply strip_trimmed.
Qed.

(** X21.  The value of a field neither starts nor ends with white
    space, whatever surrounds it in the source text. *)
Theorem field_value_trimmed (content field : list N) :
  Notions.trimmed (field_value content field).
Proof.
  unfold field_value.
  destruct (search true (FIELD_RE field) content); [apply strip_trimmed|].
  split; by intros c.
Qed.

(** ** Texts without a header *)

Section header_facts.
Implicit Types (x : list N).

Lemma header_needs_equals_sign i p x cs k :
  61 ∉ x -> run false HEADER_RE (Cursor i p x) cs k = None.
Proof.
  intros Hx. unfold HEADER_RE. change (lit "==") with [61; 61].
  cbn [Lit]. cbn [run]. unfold advance. cbn [rest pos].
  destruct x as [|c x]; [done|].
  destruct (c =? NL); [|done].
  destruct x as [|d x]; [done|].
  apply not_elem_of_cons in Hx as [_ Hx]. apply not_elem_of_cons in Hx as [Hd _].
  cbn [run]. unfold advance. cbn [rest pos].
  by rewrite (proj2 (N.eqb_neq d 61)) by congruence.
Qed.

Lemma search_header_none i p x :
  61 ∉ x -> search_at false HEADER_RE i p x = None.
Proof.
  revert i p. induction x as [|c x IH]; intros i p Hx.
  - cbn [search_at]. unfold match_at. by rewrite header_needs_equals_sign.
  - cbn [search_at]. unfold match_at. rewrite header_needs_equals_sign by done.
    apply IH. by apply not_elem_of_cons in Hx as [_ Hx].
Qed.
End header_facts.

(** X22.  A source text without an equals sign has no language block:
    the exporter writes nothing. *)
Theorem export_without_header
    (text : list N) (t : gmap (list N) (gmap (list N) (list N))) :
  61 ∉ text -> pairs text = [] ∧ export text t = t.
Proof.
  intros Hx.
  assert (Hp : pairs text = []).
  { unfold pairs, split, finditer. cbn [matches_from].
    unfold search_from, start_of. cbn [pos prev rest].
    by rewrite search_header_none. }
  split; [done|]. unfold export. by rewrite Hp.
Qed.

Lemma export_without_header_witness :
  export (lit "Name: Chess") ∅ = ∅.
Proof.
  apply (export_without_header (lit "Name: Chess") ∅).
  apply (bool_decide_unpack _). by vm_compute.
Defined.

(** ** Entry lines *)

Section regex_facts.
Import Notions.
Implicit Types (cu : cursor) (cs : captures) (x plain tail : list N).

Lemma run_star ml r1 cu cs k :
  run ml (Star r1) cu cs k = star_loop ml r1 k (length (rest cu)) cu cs.
Proof. reflexivity. Qed.

(** A repetition whose body does not match does nothing. *)
Lemma run_star_zero ml r1 cu cs k :
  (∀ k', run ml r1 cu cs k' = None) -> run ml (Star r1) cu cs k = k cu cs.
Proof.
  intros Hf. rewrite run_star. destruct (length (rest cu)); [done|].
  simpl. by rewrite Hf.
Qed.

Lemma prev_after_cons p c x : prev_after (Some c) x = prev_after p (c :: x).
Proof.
  unfold prev_after. rewrite last_cons. by destruct (last x).
Qed.

(** A greedy repetition passes over a run of characters its body takes
    one by one, when the body does not match after the run and the
    rest of the pattern matches there. *)
Lemma star_loop_run ml r1 k plain tail o :
  (∀ i p d t cs k', d ∈ plain ->
     run ml r1 (Cursor i p (d :: t)) cs k' = k' (Cursor (S i) (Some d) t) cs) ->
  (∀ i p cs k', run ml r1 (Cursor i p tail) cs k' = None) ->
  ∀ n i p cs,
    (length (plain ++ tail) <= n)%nat ->
    k (Cursor (i + length plain) (prev_after p plain) tail) cs = Some o ->
    star_loop ml r1 k n (Cursor i p (plain ++ tail)) cs = Some o.
Proof.
  intros Hstep Hstop. induction plain as [|c plain IH]; intros n i p cs Hn Hk.
  - simpl in *. rewrite Nat.add_0_r in Hk.
    destruct n; simpl; [done|]. by rewrite Hstop.
  - destruct n as [|n]; [simpl in Hn; lia|].
    cbn [star_loop app]. rewrite Hstep by apply list_elem_of_here.
    cbn [pos]. rewrite (proj2 (Nat.ltb_lt i (S i))) by lia.
    rewrite IH; [done| | |].
    + intros i' p' d t cs' k' Hd. apply Hstep. by apply list_elem_of_further.
    + simpl in Hn. lia.
    + rewrite prev_after_cons with (p := p).
      replace (S i + length plain)%nat with (i + length (c :: plain))%nat
        by (simpl; lia). done.
Qed.

Lemma run_star_run ml r1 k plain tail o i p cs :
  (∀ i p d t cs k', d ∈ plain ->
     run ml r1 (Cursor i p (d :: t)) cs k' = k' (Cursor (S i) (Some d) t) cs) ->
  (∀ i p cs k', run ml r1 (Cursor i p tail) cs k' = None) ->
  k (Cursor (i + length plain) (prev_after p plain) tail) cs = Some o ->
  run ml (Star r1) (Cursor i p (plain ++ tail)) cs k = Some o.
Proof.
  intros Hstep Hstop Hk. rewrite run_star. by apply star_loop_run.
Qed.

(** The body of a quoted text on a plain character, and at a quote. *)
Lemma quoted_item_plain ml i p d t cs k :
  plain_char d ->
  run ml QUOTED_ITEM (Cursor i p (d :: t)) cs k = k (Cursor (S i) (Some d) t) cs.
Proof.
  intros [Hq Hb]. unfold QUOTED_ITEM, NoneOf, Dot. cbn [run]. unfold advance.
  cbn [rest pos].
  rewrite (proj2 (N.eqb_neq d BACKSLASH) Hb).
  rewrite bool_decide_eq_false_2; [done|].
  rewrite !elem_of_cons, elem_of_nil. tauto.
Qed.

Lemma quoted_item_quote ml i p t cs k :
  run ml QUOTED_ITEM (Cursor i p (QUOTE :: t)) cs k = None.
Proof. reflexivity. Qed.

Lemma space_fails ml i p d t cs k :
  isspace d = false -> run ml Space (Cursor i p (d :: t)) cs k = None.
Proof. intros H. unfold Space. cbn [run]. unfold advance. cbn [rest pos]. by rewrite H. Qed.

Lemma space_fails_end ml i p cs k : run ml Space (Cursor i p []) cs k = None.
Proof. reflexivity. Qed.
End regex_facts.

Section entry_line_facts.
Import Notions.
Implicit Types (k v : list N) (cu : cursor) (cs : captures).

Lemma run_seq ml r1 r2 cu cs kk :
  run ml (Seq r1 r2) cu cs kk = run ml r1 cu cs (λ cu' cs', run ml r2 cu' cs' kk).
Proof. reflexivity. Qed.

Lemma run_group ml g r cu cs kk :
  run ml (Group g r) cu cs kk
  = run ml r cu cs (λ cu' cs', kk cu' ((g, (pos cu, pos cu')) :: cs')).
Proof. reflexivity. Qed.

Lemma run_chr ml c i p t cs kk :
  run ml (Chr c) (Cursor i p (c :: t)) cs kk = kk (Cursor (S i) (Some c) t) cs.
Proof. cbn [run]. unfold advance. cbn [rest pos]. by rewrite N.eqb_refl. Qed.

Lemma space_step ml i p d t cs kk :
  isspace d = true ->
  run ml Space (Cursor i p (d :: t)) cs kk = kk (Cursor (S i) (Some d) t) cs.
Proof. intros H. unfold Space. cbn [run]. unfold advance. cbn [rest pos]. by rewrite H. Qed.

Lemma strip_entry_line k v : strip (entry_line k v) = entry_text k v.
Proof.
  unfold strip, entry_line, entry_text.
  change (lit " = ") with [32; 61; 32]. change (lit ";") with [59].
  cbn [app lstrip]. change (isspace QUOTE) with false. cbv iota.
  unfold rstrip.
  set (A := QUOTE :: k ++ QUOTE :: 32 :: 61 :: 32 :: QUOTE :: v ++ [QUOTE]).
  assert (HA : QUOTE :: k ++ QUOTE :: 32 :: 61 :: 32 :: QUOTE :: v ++ [QUOTE; 59; NL]
               = A ++ [59; NL]).
  { unfold A. cbn [app]. f_equal. rewrite <- app_assoc. cbn [app]. do 5 f_equal.
    by rewrite <- app_assoc. }
  assert (HB : QUOTE :: k ++ QUOTE :: 32 :: 61 :: 32 :: QUOTE :: v ++ [QUOTE; 59]
               = A ++ [59]).
  { unfold A. cbn [app]. f_equal. rewrite <- app_assoc. cbn [app]. do 5 f_equal.
    by rewrite <- app_assoc. }
  rewrite HA, HB, rev_app_distr. clearbody A.
  change (rev [59; NL]) with [NL; 59]. cbn [app lstrip].
  change (isspace NL) with true. change (isspace 59) with false. cbv iota.
  change (rev (59 :: rev A)) with (rev (rev A) ++ [59]).
  by rewrite rev_involutive.
Qed.
End entry_line_facts.
Section entry_match.
Import Notions.
Lemma string_line_match k v :
  k ≠ [] -> Forall plain_char k -> Forall plain_char v ->
  run false STRING_LINE_RE (start_of (entry_text k v)) []
      (λ cu cs, Some (cu, cs))
  = Some (Cursor (length (entry_text k v)) (Some 59) [],
          [(2%nat, ((length k + 6)%nat, (length k + 6 + length v)%nat));
           (1%nat, (1%nat, (1 + length k)%nat))]).
Proof.
  intros Hk Hpk Hpv. destruct k as [|c0 k]; [done|]. clear Hk.
  apply Forall_cons in Hpk as [Hc0 Hpk].
  unfold STRING_LINE_RE, start_of, entry_text, Plus, Opt.
  rewrite run_seq, run_star_zero by (intros k'; by apply space_fails).
  rewrite run_seq, run_chr.
  rewrite run_seq, run_group, run_seq. cbn [app].
  rewrite quoted_item_plain by done.
  cbn [pos].
  apply (run_star_run false QUOTED_ITEM _ k).
  { intros i p d t cs k' Hd. apply quoted_item_plain.
    by eapply Forall_forall in Hpk. }
  { intros i p cs k'. apply quoted_item_quote. }
  cbn [pos].
  rewrite run_seq, run_chr.
  rewrite run_seq.
  apply (run_star_run false Space _ [32] (61 :: 32 :: QUOTE :: v ++ [QUOTE; 59])).
  { intros i p d t cs k' ->%list_elem_of_singleton. by apply space_step. }
  { intros i p cs k'. by apply space_fails. }
  rewrite run_seq, run_chr.
  rewrite run_seq.
  apply (run_star_run false Space _ [32] (QUOTE :: v ++ [QUOTE; 59])).
  { intros i p d t cs k' ->%list_elem_of_singleton. by apply space_step. }
  { intros i p cs k'. by apply space_fails. }
  rewrite run_seq, run_chr.
  rewrite run_seq, run_group.
  apply (run_star_run false QUOTED_ITEM _ v [QUOTE; 59]).
  { intros i p d t cs k' Hd. apply quoted_item_plain.
    by eapply Forall_forall in Hpv. }
  { intros i p cs k'. apply quoted_item_quote. }
  cbn [pos].
  rewrite run_seq, run_chr.
  rewrite run_seq, run_star_zero by (intros k'; by apply space_fails).
  rewrite run_seq, run_chr.
  rewrite run_seq, run_star_zero by (intros k'; apply space_fails_end).
  change (lit "//") with [47; 47].
  cbn [run Lit]. unfold advance, at_eol. cbn [rest].
  f_equal. f_equal.
  - f_equal. cbn [length]. rewrite length_app. cbn [length].
    rewrite length_app. cbn [length]. lia.
  - cbn [length]. repeat f_equal; lia.
Qed.
End entry_match.

Section entry_classify.
Import Notions.
Implicit Types (k v : list N).

Lemma run_bol ml i x cs kk :
  run ml Bol (Cursor i None x) cs kk = kk (Cursor i None x) cs.
Proof. reflexivity. Qed.

Lemma comment_no_match k v : rematch false COMMENT_RE (entry_text k v) = None.
Proof.
  unfold rematch, match_at, COMMENT_RE, start_of, entry_text.
  rewrite run_seq, run_bol.
  rewrite run_seq, run_star_zero by (intros k'; by apply space_fails).
  reflexivity.
Qed.

Lemma entry_text_key k v :
  slice (entry_text k v) 1 (1 + length k) = k.
Proof.
  unfold slice, entry_text. cbn [drop].
  replace (1 + length k - 1)%nat with (length k) by lia.
  rewrite drop_0. by rewrite take_app_length.
Qed.

Lemma entry_text_value k v :
  slice (entry_text k v) (length k + 6) (length k + 6 + length v) = v.
Proof.
  unfold slice, entry_text.
  replace (length k + 6 + length v - (length k + 6))%nat with (length v) by lia.
  assert (Hx : QUOTE :: k ++ QUOTE :: 32 :: 61 :: 32 :: QUOTE :: v ++ [QUOTE; 59]
               = (QUOTE :: k ++ [QUOTE; 32; 61; 32; QUOTE]) ++ v ++ [QUOTE; 59]).
  { cbn [app]. f_equal. by rewrite <- app_assoc. }
  rewrite Hx, drop_app_length'.
  - by rewrite take_app_length.
  - cbn [length]. rewrite length_app. cbn [length]. lia.
Qed.

(** The pattern of an entry line on the line of a key and a value:
    the groups are the key and the value. *)
Lemma string_line_groups k v :
  k ≠ [] -> Forall plain_char k -> Forall plain_char v ->
  ∃ m, rematch false STRING_LINE_RE (entry_text k v) = Some m
       ∧ group (entry_text k v) m 1 = Some k
       ∧ group (entry_text k v) m 2 = Some v.
Proof.
  intros Hk Hpk Hpv. unfold rematch, match_at.
  rewrite (string_line_match k v Hk Hpk Hpv).
  eexists. split; [reflexivity|]. unfold group. cbn [m_groups List.find fst Nat.eqb].
  by rewrite entry_text_key, entry_text_value.
Qed.

Lemma plain_no_backslash k : Forall plain_char k -> BACKSLASH ∉ k.
Proof.
  intros Hk Hin. eapply Forall_forall in Hk; [|exact Hin]. by destruct Hk.
Qed.
End entry_classify.

Lemma classify_canonical_line (k v : list N) :
  k ≠ [] -> Forall Notions.plain_char k -> Forall Notions.plain_char v ->
  classify (Notions.entry_line k v) = Entry k v.
Proof.
  intros Hk Hpk Hpv. unfold classify. rewrite strip_entry_line.
  rewrite comment_no_match.
  destruct (string_line_groups k v Hk Hpk Hpv) as (m & -> & -> & ->).
  rewrite bool_decide_eq_false_2 by done.
  rewrite (bool_decide_eq_false_2 (is_Some None)) by by intros [? ?].
  change (startswith (Notions.entry_text k v) (lit "//")) with false.
  cbn [orb default from_option id].
  by rewrite !unescape_no_backslash by by apply plain_no_backslash.
Qed.

(** X23.  The line of a key in quotes, an equals sign, a value in
    quotes and a semicolon is an entry line with that key and that
    value, for every non-empty key and every value without quote and
    backslash. *)
Theorem classify_entry_line (k v : list N) :
  k ≠ [] -> Forall Notions.plain_char k -> Forall Notions.plain_char v ->
  classify (Notions.entry_line k v) = Entry k v.
Proof.
  intros Hk Hpk Hpv. unfold classify. rewrite strip_entry_line.
  rewrite comment_no_match.
  destruct (string_line_groups k v Hk Hpk Hpv) as (m & -> & -> & ->).
  rewrite bool_decide_eq_false_2 by done.
  rewrite (bool_decide_eq_false_2 (is_Some None)) by by intros [? ?].
  change (startswith (Notions.entry_text k v) (lit "//")) with false.
  cbn [orb default from_option id].
  by rewrite !unescape_no_backslash by by apply plain_no_backslash.
Qed.

Lemma classify_entry_line_witness :
  classify (Notions.entry_line (lit "Hello") (lit "Hi")) = Entry (lit "Hello") (lit "Hi").
Proof.
  apply (classify_entry_line (lit "Hello") (lit "Hi"));
    [done | apply (bool_decide_unpack _); by vm_compute
    | apply (bool_decide_unpack _); by vm_compute].
Defined.

Section round_trip.
Import Notions.
Implicit Types (d acc : Dict.dict (list N)) (k v l cur rest : list N).

Lemma safe_plain k : Forall safe_char k -> Forall plain_char k.
Proof.
  intros H. eapply Forall_impl; [exact H|]. intros c (? & ? & _). by split.
Qed.

Lemma readlines_from_line l cur rest :
  Forall (λ c, c ≠ NL ∧ c ≠ CR) l ->
  readlines_from cur (l ++ NL :: rest)
  = (rev cur ++ l ++ [NL]) :: readlines_from [] rest.
Proof.
  intros Hl. revert cur. induction Hl as [|c l [Hn Hc] Hl IH]; intros cur.
  - cbn [app readlines_from]. rewrite N.eqb_refl. reflexivity.
  - cbn [app readlines_from].
    rewrite (proj2 (N.eqb_neq c NL) Hn), (proj2 (N.eqb_neq c CR) Hc).
    rewrite IH. cbn [rev]. by rewrite <- !app_assoc.
Qed.

Lemma entry_line_body k v :
  Forall safe_char k -> Forall safe_char v ->
  ∃ body, entry_line k v = body ++ [NL] ∧ Forall (λ c, c ≠ NL ∧ c ≠ CR) body.
Proof.
  intros Hk Hv.
  exists ([QUOTE] ++ k ++ [QUOTE] ++ lit " = " ++ [QUOTE] ++ v ++ [QUOTE] ++ lit ";").
  split.
  - unfold entry_line. by rewrite <- !app_assoc.
  - assert (Hs : ∀ x, Forall safe_char x -> Forall (λ c, c ≠ NL ∧ c ≠ CR) x).
    { intros x Hx. eapply Forall_impl; [exact Hx|]. by intros c (_ & _ & ? & ?). }
    rewrite !Forall_app. split_and!; try (by apply Hs);
      repeat constructor; by vm_compute.
Qed.

Lemma readlines_strings_text d :
  (∀ k v, (k, v) ∈ Dict.items d -> Forall safe_char k ∧ Forall safe_char v) ->
  readlines (strings_text d) = map (λ kv, entry_line kv.1 kv.2) (Dict.items d).
Proof.
  unfold readlines, strings_text, Dict.items.
  induction d as [|[k v] d IH]; intros Hd; [done|].
  cbn [map concat fst snd].
  destruct (Hd k v) as [Hk Hv]; [apply list_elem_of_here|].
  destruct (entry_line_body k v Hk Hv) as (body & -> & Hb).
  rewrite <- app_assoc. cbn [app]. rewrite readlines_from_line by done.
  cbn [rev app]. f_equal. apply IH.
  intros k' v' Hin. apply Hd. by apply list_elem_of_further.
Qed.

Lemma parse_from_entry_lines path s acc w d :
  NoDup (Dict.keys acc ++ Dict.keys d) ->
  (∀ k v, (k, v) ∈ Dict.items d ->
     k ≠ [] ∧ Forall plain_char k ∧ Forall plain_char v) ->
  Spec.parse_from path s (acc, w) (map (λ kv, entry_line kv.1 kv.2) (Dict.items d))
  = (acc ++ d, w).
Proof.
  unfold Dict.items. revert s acc.
  induction d as [|[k v] d IH]; intros s acc Hnd Hd.
  - cbn. by rewrite app_nil_r.
  - cbn [map fst snd]. rewrite parse_from_cons.
    destruct (Hd k v) as (Hk & Hpk & Hpv); [apply list_elem_of_here|].
    unfold parse_line. rewrite (classify_canonical_line k v Hk Hpk Hpv).
    assert (Hfresh : k ∉ Dict.keys acc).
    { apply NoDup_app in Hnd as (_ & Hdisj & _). intros Hin.
      apply (Hdisj _ Hin). apply list_elem_of_here. }
    assert (Hmem : Dict.mem acc k = false).
    { destruct (Dict.mem acc k) eqn:Hm; [|done]. by apply mem_keys in Hm. }
    rewrite Hmem, set_new by done. rewrite IH.
    + by rewrite <- app_assoc.
    + unfold Dict.keys in *. rewrite map_app, <- app_assoc. exact Hnd.
    + intros k' v' Hin. apply Hd. by apply list_elem_of_further.
Qed.
End round_trip.

(** X24.  A [.strings] file that holds one entry line for each item of
    a dictionary, with non-empty keys and without quote, backslash and
    line end in keys and values, parses to that dictionary, in its
    order, with no warning. *)
Theorem parse_strings_text_round_trip
    (f : gmap (list N) node) (path : list N) (d : Dict.dict (list N)) :
  Dict.wf d ->
  (∀ k v, (k, v) ∈ Dict.items d ->
     k ≠ [] ∧ Forall Notions.safe_char k ∧ Forall Notions.safe_char v) ->
  f !! path = Some (File (Some (Notions.strings_text d))) ->
  parse_strings_file f path = Ok (d, []).
Proof.
  intros Hwf Hd Hf.
  rewrite (parse_strings_file_readable f path _ Hf), parse_lines_from.
  rewrite readlines_strings_text.
  - rewrite parse_from_entry_lines; [done|exact Hwf|].
    intros k v Hin. destruct (Hd k v Hin) as (? & ? & ?).
    split_and!; [done|by apply safe_plain..].
  - intros k v Hin. by destruct (Hd k v Hin) as (? & ? & ?).
Qed.

Lemma parse_strings_text_round_trip_witness :
  parse_strings_file
    (<[Samples.en_path := File (Some (Notions.strings_text Samples.en_catalog))]> ∅)
    Samples.en_path
  = Ok (Samples.en_catalog, []).
Proof.
  apply parse_strings_text_round_trip.
  - apply (bool_decide_unpack _). by vm_compute.
  - intros k v Hin. cbn in Hin.
    repeat (apply elem_of_cons in Hin as [[= -> ->]|Hin];
            [split_and!; [done | apply (bool_decide_unpack _); by vm_compute
                          | apply (bool_decide_unpack _); by vm_compute]|]).
    by apply elem_of_nil in Hin.
  - apply lookup_insert_eq.
Defined.

(** ** The description, line by line *)

Section dedent_facts.
Import Notions.
Implicit Types (x s pre : list N) (p : option N) (c : N).

Lemma ws_run_lstrip x : x = ws_run x ++ lstrip x.
Proof.
  induction x as [|c x IH]; [done|]. simpl.
  destruct (isspace c); [|done]. simpl. by f_equal.
Qed.

Lemma ws_run_spaces x d : d ∈ ws_run x -> isspace d = true.
Proof.
  induction x as [|c x IH]; simpl; [by intros ?%elem_of_nil|].
  destruct (isspace c) eqn:Hc; [|by intros ?%elem_of_nil].
  intros [->|Hd]%elem_of_cons; [done|by apply IH].
Qed.

Lemma lstrip_stops ml x i p cs k' :
  run ml Space (Cursor i p (lstrip x)) cs k' = None.
Proof.
  destruct (lstrip x) as [|d t] eqn:Hl; [reflexivity|].
  apply space_fails. apply (lstrip_head x). by rewrite Hl.
Qed.

Lemma length_lstrip x : (length (lstrip x) <= length x)%nat.
Proof.
  induction x as [|c x IH]; [done|]. simpl. destruct (isspace c); simpl; lia.
Qed.

(** The pattern at one place of the text. *)
Lemma indent_match_at i p s :
  match_at true INDENT_RE (Cursor i p s)
  = match s with
    | c :: s' =>
        if bol_of p && isspace c then
          Some (RMatch i (S i + length (ws_run s'))
                  (Cursor (S i + length (ws_run s'))
                     (prev_after (Some c) (ws_run s')) (lstrip s')) [])
        else None
    | [] => None
    end.
Proof.
  unfold match_at, INDENT_RE, Plus. rewrite run_seq.
  change (run true Bol ?cu ?cs ?k) with (if at_bol true cu then k cu cs else None).
  assert (Hbol : at_bol true (Cursor i p s) = bol_of p) by by destruct p.
  rewrite Hbol. destruct s as [|c s'].
  - rewrite run_seq. by destruct (bol_of p).
  - destruct (bol_of p); [|done]. cbn [andb]. rewrite run_seq.
    destruct (isspace c) eqn:Hc; [|by rewrite space_fails].
    rewrite space_step by done.
    rewrite (ws_run_lstrip s') at 1.
    rewrite (run_star_run true Space _ (ws_run s') (lstrip s')
               (Cursor (S i + length (ws_run s'))
                  (prev_after (Some c) (ws_run s')) (lstrip s'), [])); [done| | |done].
    + intros i' p' d t cs k' Hd. apply space_step. by eapply ws_run_spaces.
    + intros i' p' cs k'. apply lstrip_stops.
Qed.

Lemma indent_search_bounds s i p m :
  search_at true INDENT_RE i p s = Some m ->
  (i <= m_start m)%nat ∧ (m_start m < m_end m)%nat.
Proof.
  revert i p. induction s as [|c s IH]; intros i p.
  - cbn [search_at]. by rewrite indent_match_at.
  - cbn [search_at]. rewrite indent_match_at.
    destruct (bol_of p && isspace c).
    + intros [= <-]. simpl. lia.
    + intros H. apply IH in H. lia.
Qed.

Lemma dedent_lstrip b x : dedent b (lstrip x) = dedent true (lstrip x).
Proof.
  destruct (lstrip x) as [|d t] eqn:Hl; [done|].
  assert (Hd : isspace d = false) by (apply (lstrip_head x); by rewrite Hl).
  simpl. rewrite Hd. by rewrite !andb_false_r.
Qed.

Lemma dedent_ws_run x : dedent true x = dedent true (lstrip x).
Proof.
  induction x as [|c x IH]; [done|]. simpl.
  destruct (isspace c) eqn:Hc; [done|]. simpl. by rewrite Hc.
Qed.
End dedent_facts.

Section dedent_sub.
Import Notions.
Implicit Types (x s pre : list N) (p : option N) (c : N).

Lemma indent_matches_shift fuel i p c s :
  bol_of p && isspace c = false ->
  matches_from true INDENT_RE (S fuel) (Cursor i p (c :: s))
  = matches_from true INDENT_RE (S fuel) (Cursor (S i) (Some c) s).
Proof.
  intros Hb. cbn [matches_from]. unfold search_from. cbn [pos prev rest search_at].
  rewrite indent_match_at, Hb.
  destruct (search_at true INDENT_RE (S i) (Some c) s) as [m|] eqn:Hs; [|done].
  apply indent_search_bounds in Hs.
  rewrite (proj2 (Nat.ltb_lt i (m_end m))) by lia.
  by rewrite (proj2 (Nat.ltb_lt (S i) (m_end m))) by lia.
Qed.

Lemma indent_matches_head fuel j p s m ms :
  matches_from true INDENT_RE fuel (Cursor j p s) = m :: ms -> (j <= m_start m)%nat.
Proof.
  destruct fuel as [|fuel]; [done|]. cbn [matches_from]. unfold search_from.
  cbn [pos prev rest].
  destruct (search_at true INDENT_RE j p s) as [m'|] eqn:Hs; [|done].
  apply indent_search_bounds in Hs.
  destruct (j <? m_end m')%nat; intros [= <- _]; lia.
Qed.

Lemma sub_pieces_shift x i c ms :
  x !! i = Some c ->
  (∀ m ms', ms = m :: ms' -> (S i <= m_start m)%nat) ->
  sub_pieces x i ms = c :: sub_pieces x (S i) ms.
Proof.
  intros Hx Hms. destruct ms as [|m ms'].
  - cbn [sub_pieces]. by apply drop_S.
  - cbn [sub_pieces]. unfold slice.
    pose proof (Hms m ms' eq_refl) as Hm.
    rewrite (drop_S x c i Hx).
    replace (m_start m - i)%nat with (S (m_start m - S i)) by lia.
    done.
Qed.

(** Taking the matches of the pattern out is [dedent]. *)
Lemma sub_indent_dedent n :
  ∀ s pre p fuel,
    (length s <= n)%nat -> (length s < fuel)%nat ->
    sub_pieces (pre ++ s) (length pre)
      (matches_from true INDENT_RE fuel (Cursor (length pre) p s))
    = dedent (bol_of p) s.
Proof.
  induction n as [|n IH]; intros s pre p fuel Hn Hfuel.
  - destruct s; [|simpl in Hn; lia].
    destruct fuel as [|fuel]; [simpl in Hfuel; lia|].
    cbn [matches_from]. unfold search_from. cbn [pos prev rest search_at].
    rewrite indent_match_at. cbn [sub_pieces dedent].
    rewrite app_nil_r. apply drop_all.
  - destruct s as [|c s'].
    { destruct fuel as [|fuel]; [simpl in Hfuel; lia|].
      cbn [matches_from]. unfold search_from. cbn [pos prev rest search_at].
      rewrite indent_match_at. cbn [sub_pieces dedent].
      rewrite app_nil_r. apply drop_all. }
    destruct fuel as [|fuel]; [simpl in Hfuel; lia|].
    simpl in Hn, Hfuel.
    destruct (bol_of p && isspace c) eqn:Hb.
    + cbn [matches_from]. unfold search_from. cbn [pos prev rest search_at].
      rewrite indent_match_at, Hb. cbn [m_end m_after m_start].
      rewrite (proj2 (Nat.ltb_lt _ _)) by lia.
      cbn [sub_pieces m_start m_end]. unfold slice at 1.
      rewrite Nat.sub_diag, take_0. cbn [app].
      pose proof (length_lstrip s') as Hl.
      assert (Hx : pre ++ c :: s' = (pre ++ c :: ws_run s') ++ lstrip s').
      { rewrite <- app_assoc. cbn [app]. by rewrite <- ws_run_lstrip. }
      assert (Hlen : (S (length pre) + length (ws_run s'))%nat
                     = length (pre ++ c :: ws_run s')).
      { rewrite length_app. simpl. lia. }
      rewrite Hx, Hlen, IH by lia.
      cbn [dedent]. rewrite Hb. by rewrite dedent_lstrip, <- dedent_ws_run.
    + rewrite indent_matches_shift by done.
      rewrite sub_pieces_shift with (c := c).
      * assert (Hx : pre ++ c :: s' = (pre ++ [c]) ++ s') by by rewrite <- app_assoc.
        assert (Hlen : S (length pre) = length (pre ++ [c])).
        { rewrite length_app. simpl. lia. }
        rewrite Hx, Hlen, IH by lia.
        cbn [dedent]. by rewrite Hb.
      * by rewrite list_lookup_middle.
      * intros m ms' Hm. by apply indent_matches_head in Hm.
Qed.

Lemma sub_empty_dedent x : sub_empty true INDENT_RE x = dedent true x.
Proof.
  unfold sub_empty, finditer, start_of.
  apply (sub_indent_dedent (length x) x [] None (S (length x))); lia.
Qed.

(** In a dedented text a line end is followed by no white space, and
    the text starts with none when it begins a line. *)
Lemma dedent_lines b x :
  (b = true -> ∀ c, head (dedent b x) = Some c -> isspace c = false)
  ∧ ∀ i c, dedent b x !! i = Some NL -> dedent b x !! S i = Some c ->
           isspace c = false.
Proof.
  revert b. induction x as [|d x IH]; intros b.
  - split; [by intros _ c|]. by intros i c.
  - cbn [dedent]. destruct (b && isspace d) eqn:Hb.
    + destruct (IH true) as [Hh Hi]. split; [|exact Hi]. intros _. by apply Hh.
    + destruct (IH (d =? NL)) as [Hh Hi]. split.
      * intros -> c [= <-]. by destruct (isspace d).
      * intros [|i] c.
        -- cbn. intros [= ->]. change (NL =? NL) with true in *.
           destruct (dedent true x) as [|e y]; [done|].
           cbn. intros [= ->]. by apply Hh.
        -- cbn. apply Hi.
Qed.
End dedent_sub.

Lemma clean_desc_as_dedent (desc : list N) :
  clean_desc desc = strip (Notions.dedent true desc) ++ [NL].
Proof.
  unfold clean_desc. change (Seq Bol (Plus Space)) with Notions.INDENT_RE.
  by rewrite sub_empty_dedent.
Qed.

(** X25.  The cleaned description is the description without the
    white space at the start of its lines, blank lines included,
    stripped at both ends, with one newline after it. *)
Theorem clean_desc_dedent (desc : list N) :
  clean_desc desc = strip (Notions.dedent true desc) ++ [NL].
Proof.
  unfold clean_desc. change (Seq Bol (Plus Space)) with Notions.INDENT_RE.
  by rewrite sub_empty_dedent.
Qed.

(** X26.  In the text of [description.txt] no newline is followed by a
    white-space character: no line is blank and none is indented. *)
Theorem clean_desc_no_blank_or_indented_line (desc : list N) (i : nat) (c : N) :
  clean_desc desc !! i = Some NL -> clean_desc desc !! S i = Some c ->
  isspace c = false.
Proof.
  rewrite clean_desc_as_dedent.
  set (y := Notions.dedent true desc).
  destruct (lstrip_suffix y) as [s1 H1].
  destruct (rstrip_prefix (lstrip y)) as [s2 H2].
  fold (strip y) in H2. set (z := strip y) in *.
  destruct (strip_trimmed y) as [_ Hlast]. fold z in Hlast.
  intros Hi Hsi.
  destruct (decide (S i < length z)%nat) as [Hlt|Hge].
  - rewrite lookup_app_l in Hi by lia. rewrite lookup_app_l in Hsi by lia.
    destruct (dedent_lines true desc) as [_ Hlines]. fold y in Hlines.
    apply (Hlines (length s1 + i)%nat c).
    + rewrite H1, lookup_app_r by lia.
      replace (length s1 + i - length s1)%nat with i by lia.
      rewrite H2. rewrite lookup_app_l by lia. exact Hi.
    + rewrite H1, lookup_app_r by lia.
      replace (S (length s1 + i) - length s1)%nat with (S i) by lia.
      rewrite H2. rewrite lookup_app_l by lia. exact Hsi.
  - destruct (decide (S i = length z)) as [Heq|Hne].
    + rewrite lookup_app_l in Hi by lia.
      assert (Hl : last z = Some NL).
      { rewrite last_lookup. by replace (pred (length z)) with i by lia. }
      by apply Hlast in Hl.
    + apply lookup_lt_Some in Hsi. rewrite length_app in Hsi. simpl in Hsi. lia.
Qed.

Lemma clean_desc_no_blank_or_indented_line_witness : isspace 83 = false.
Proof.
  apply (clean_desc_no_blank_or_indented_line Samples.two_paragraphs 6 83);
    by vm_compute.
Defined.

(** X27.  A run with [--no-backup] that is no dry run and returns 0 has
    written, at the output path, the JSON text of the catalog built
    from the catalogs loaded for the discovered locales. *)
Theorem main_writes_catalog
    (args : arguments) (w : world) (locales : list (list N * list N)) :
  discover_locales (fs w) (project_dir args) (basename args) = Ok locales ->
  no_backup args = true -> dry_run args = false ->
  (main args w).1 = Ok 0%nat ->
  ∃ ld w1,
    load_locales locales Dict.empty (emit w (OutDiscovered locales.*1)) = (Ok ld, w1)
    ∧ fs (main args w).2 !! Spec.output_path args
      = Some (File (Some (json_dumps
                (build_xcstring ld (source_language args) (version_arg args))))).
Proof.
  intros Hd Hnb Hdry.
  destruct locales as [|l0 locales].
  { by rewrite (main_no_locales args w Hd). }
  rewrite (main_some_locales args w (l0 :: locales) Hd) by done.
  destruct (load_locales _ _ _) as [[ld|e] w1]; [|done].
  cbn zeta. intros Hok. exists ld, w1. split; [done|].
  revert Hok. unfold Spec.write_step, Spec.backup_step. rewrite Hnb, Hdry.
  unfold mbind, M_bind, bind, lift, set_fs, print.
  match goal with
  | |- context [write_file ?f ?p ?t] =>
      destruct (write_file f p t) as [f'|e] eqn:Hw
  end; simpl; [|done].
  apply write_file_Ok in Hw as [_ ->]. intros _. apply lookup_insert_eq.
Qed.

Lemma main_writes_catalog_witness :
  ∃ text, fs (main Samples.no_backup_args (World Samples.dup_fs [])).2
            !! lit "ChessDuo/Localizable.xcstrings" = Some (File (Some text)).
Proof.
  destruct (main_writes_catalog Samples.no_backup_args (World Samples.dup_fs [])
              [(lit "en", Samples.en_path)])
    as (ld & w1 & _ & H); [reflexivity | reflexivity | reflexivity | by vm_compute |].
  eexists. exact H.
Defined.

(** X28.  When the files are read and the output cannot be written (the
    path is that of a directory, or it lies in no directory that is
    there), a run that is no dry run ends with an exception, exit
    status 1, and has changed nothing: the originals are untouched. *)
Theorem main_output_not_writable
    (args : arguments) (w : world) (locales : list (list N * list N)) :
  discover_locales (fs w) (project_dir args) (basename args) = Ok locales ->
  locales ≠ [] ->
  Spec.readable (fs w) locales ->
  dry_run args = false ->
  ¬ Spec.writable (fs w) (Spec.output_path args) ->
  (∃ e, (main args w).1 = Raise e)
  ∧ exit_status (main args w).1 = 1%nat
  ∧ fs (main args w).2 = fs w.
Proof.
  intros Hd Hne Hr Hdry Hw. rewrite (main_some_locales args w locales Hd Hne).
  destruct (load_locales_readable locales Dict.empty
              (emit w (OutDiscovered locales.*1)) Hr) as (ld & w1 & -> & Hf1).
  cbn zeta. unfold Spec.write_step. rewrite Hdry.
  unfold mbind, M_bind, bind, lift, set_fs, print.
  match goal with
  | |- context [write_file (fs ?w3) ?p ?t] =>
      assert (Hf3 : fs w3 = fs w)
        by (destruct (Dict.mem ld (source_language args)); simpl; by rewrite Hf1);
      destruct (write_file (fs w3) p t) as [f'|e] eqn:Hwf
  end.
  - apply write_file_Ok in Hwf as [Hwf _]. rewrite Hf3 in Hwf. by destruct Hw.
  - split_and!; [by eexists|done|done].
Qed.

Lemma main_output_not_writable_witness :
  (∃ e, (main (Arguments_ (lit "ChessDuo") (lit "Localizable")
                 (Some (lit "build/Localizable.xcstrings")) (lit "en") (lit "1.0")
                 (lit ".bak") false false false)
              (World Samples.dup_fs [])).1 = Raise e)
  ∧ fs (main (Arguments_ (lit "ChessDuo") (lit "Localizable")
                (Some (lit "build/Localizable.xcstrings")) (lit "en") (lit "1.0")
                (lit ".bak") false false false)
             (World Samples.dup_fs [])).2 = Samples.dup_fs.
Proof.
  destruct (main_output_not_writable
              (Arguments_ (lit "ChessDuo") (lit "Localizable")
                 (Some (lit "build/Localizable.xcstrings")) (lit "en") (lit "1.0")
                 (lit ".bak") false false false)
              (World Samples.dup_fs []) [(lit "en", Samples.en_path)])
    as (He & _ & Hfs).
  - reflexivity.
  - done.
  - intros loc path Hin.
    repeat (apply elem_of_cons in Hin as [[= -> ->]|Hin]; [by eexists|]).
    by apply elem_of_nil in Hin.
  - reflexivity.
  - intros (_ & _ & _ & [Hs|[entries Hd]]); by vm_compute in *.
  - by split.
Defined.

(** ** The language blocks of a source text *)

Section header_match.
Import Spec Notions.
Implicit Types (x y t g s : list N) (p : option N) (cs : captures).

























End header_match.

Section listed_facts.
Import Spec.


End listed_facts.




